(** * local-mongodb-collection-mirror: a model of [index.js]

    The mirror keeps an in-memory copy of a MongoDB collection.  It is
    seeded by one [collection.find({}).toArray()] and kept up to date by
    a change stream.  This file embeds the class
    [LocalMongoDbCollectionMirror] and its helper functions, and states
    the properties of the specification over that embedding.

    JavaScript values are references into a heap of objects, so that the
    sharing between the cache and the arrays handed to callers is
    visible.  The [Map] that backs the cache keeps insertion order, as
    the iteration of [find] depends on it.  Asynchronous behaviour (the
    promise of the initial enumeration, the change stream, the promises
    returned by [close] and [waitUntilReady]) is a labelled transition
    system over a record [World]. *)

From stdpp Require Import base tactics option list strings pretty gmap.
From Stdlib Require Import ZArith Lia.

Local Open Scope string_scope.
Local Open Scope list_scope.
Local Open Scope Z_scope.

(** ** JavaScript values and the object heap *)

Definition loc := positive.

Inductive value : Type :=
| VUndefined
| VNull
| VBool (b : bool)
| VNum (n : Z)
| VStr (s : string)
| VRef (l : loc).

#[global] Instance value_eq_dec : EqDecision value.
Proof. solve_decision. Defined.

(** An object is a finite map from property names to values; the heap
    maps references to objects. *)
Abbreviation obj := (gmap string value).
Abbreviation heap := (gmap loc (gmap string value)).

(** [doc !== null && doc !== undefined] is [negb (nullish doc)]. *)
Definition nullish (v : value) : bool :=
  match v with
  | VUndefined | VNull => true
  | _ => false
  end.

(** ** Errors and results *)

(** The three [SbError] subtypes of the module, and the [TypeError] the
    language raises on a property access on [undefined] or [null] and on
    a call of something that is not a function. *)
Inductive error : Type :=
| CollectionNoLongerValid
| MirrorClosed
| NoSuchKey (docKey : value)
| TypeError.

Inductive result (A : Type) : Type :=
| Ok (a : A)
| Throw (e : error).
Arguments Ok {A} a.
Arguments Throw {A} e.

(** [v.name]: reading a property.  Absent properties read as
    [undefined]; primitives have no own properties. *)
Definition get_prop (h : heap) (v : value) (name : string) : result value :=
  match v with
  | VUndefined | VNull => Throw TypeError
  | VRef l =>
      match h !! l with
      | Some o => Ok (default VUndefined (o !! name))
      | None => Ok VUndefined
      end
  | _ => Ok VUndefined
  end.

(** [v.name = x] on an object reference. *)
Definition set_prop (h : heap) (l : loc) (name : string) (x : value) : heap :=
  <[l := <[name := x]> (default ∅ (h !! l))]> h.

(** ** The JavaScript [Map]

    An association list in insertion order.  [Map_set] on a key already
    present keeps its position, on a new key appends. *)

Abbreviation jsmap := (list (value * value)).

Fixpoint Map_has (k : value) (m : jsmap) : bool :=
  match m with
  | [] => false
  | (k', _) :: m' => if decide (k' = k) then true else Map_has k m'
  end.

Fixpoint Map_get (k : value) (m : jsmap) : value :=
  match m with
  | [] => VUndefined
  | (k', v) :: m' => if decide (k' = k) then v else Map_get k m'
  end.

Fixpoint Map_set (k v : value) (m : jsmap) : jsmap :=
  match m with
  | [] => [(k, v)]
  | (k', v') :: m' =>
      if decide (k' = k) then (k, v) :: m' else (k', v') :: Map_set k v m'
  end.

Fixpoint Map_delete (k : value) (m : jsmap) : jsmap :=
  match m with
  | [] => []
  | (k', v') :: m' =>
      if decide (k' = k) then Map_delete k m' else (k', v') :: Map_delete k m'
  end.

Definition Map_values (m : jsmap) : list value := map snd m.

(** ** The mirror object and its surroundings *)

(** A [MongoDB.Timestamp]: two signed 32-bit integers; [high] is the time
    in seconds. *)
Record Timestamp : Type := { low : Z; high : Z }.

(** [x | 0]: the number as a signed 32-bit integer. *)
Definition to_int32 (x : Z) : Z := (x + 2 ^ 31) mod 2 ^ 32 - 2 ^ 31.

(** [new MongoDB.Timestamp(low, high)] keeps [low | 0] and [high | 0]. *)
Definition new_Timestamp (l h : Z) : Timestamp :=
  {| low := to_int32 l; high := to_int32 h |}.
Arguments new_Timestamp : simpl never.

(** The options [buildChangeStream] hands to [collection.watch]. *)
Record WatchOptions : Type := {
  opt_fullDocument : string;
  opt_startAtOperationTime : Timestamp
}.

Record ChangeStream : Type := {
  pipeline : list value;
  options : WatchOptions
}.

(** The own fields of the instance.  [invalid] and [closed] are never
    assigned [false] by the source: they are [undefined] until set to
    [true], and [false] stands for [undefined] here (both are falsy).
    [changeStream] is [undefined] until the seeding is done. *)
Record Mirror : Type := {
  cache : jsmap;
  changeStream : option ChangeStream;
  invalid : bool;
  closed : bool;
  lastOpId : value
}.

(** A change event as the driver delivers it. *)
Record change : Type := {
  _id : value;
  operationType : string;
  documentKey : value;
  fullDocument : value
}.

(** What a listener receives. *)
Inductive arg : Type :=
| AMirror
| AValue (v : value)
| AChange (c : change).

(** One call of [EventEmitter.emit]: the event name, the arguments, and
    the fields of the mirror as the listeners see them during the call. *)
Record emission : Type := {
  ev_name : string;
  ev_args : list arg;
  ev_seen : Mirror
}.

(** The listeners the class itself registers, all of them on ['ready']. *)
Inductive listener : Type :=
| OnReadyResolve (p : nat)
| OnReadyCloseStream (p : nat).

Inductive pkind : Type := PWaitUntilReady | PClose.
Inductive pstate : Type := Pending | Fulfilled | Rejected.

Record promise : Type := { p_kind : pkind; p_state : pstate }.

#[global] Instance pkind_eq_dec : EqDecision pkind.
Proof. solve_decision. Defined.
#[global] Instance pstate_eq_dec : EqDecision pstate.
Proof. solve_decision. Defined.
#[global] Instance promise_eq_dec : EqDecision promise.
Proof. solve_decision. Defined.
#[global] Instance listener_eq_dec : EqDecision listener.
Proof. solve_decision. Defined.

(** Everything the behaviour of one mirror depends on.
    - [objects]: the heap of documents and key documents;
    - [listeners], [emitted]: the state of the [EventEmitter] superclass
      (own listeners, and the log of calls of [emit]);
    - [promises]: the promises handed out by [waitUntilReady] and
      [close], by index;
    - [toArray]: the promise of the initial enumeration;
    - [stream_close_calls]: the calls of [stream.close()] that have not
      settled, each with the promise of [close] it will settle;
    - [stream_released]: the driver has released the change stream;
    - [clock]: what [Date.now()] returns, in milliseconds. *)
Record World : Type := {
  objects : heap;
  mirror : Mirror;
  listeners : list listener;
  emitted : list emission;
  promises : list promise;
  toArray : pstate;
  stream_close_calls : list nat;
  stream_released : bool;
  clock : Z
}.

Definition with_mirror (f : Mirror → Mirror) (w : World) : World :=
  {| objects := objects w; mirror := f (mirror w); listeners := listeners w;
     emitted := emitted w; promises := promises w; toArray := toArray w;
     stream_close_calls := stream_close_calls w;
     stream_released := stream_released w; clock := clock w |}.

Definition with_objects (h : heap) (w : World) : World :=
  {| objects := h; mirror := mirror w; listeners := listeners w;
     emitted := emitted w; promises := promises w; toArray := toArray w;
     stream_close_calls := stream_close_calls w;
     stream_released := stream_released w; clock := clock w |}.

Definition with_listeners (f : list listener → list listener) (w : World) : World :=
  {| objects := objects w; mirror := mirror w; listeners := f (listeners w);
     emitted := emitted w; promises := promises w; toArray := toArray w;
     stream_close_calls := stream_close_calls w;
     stream_released := stream_released w; clock := clock w |}.

Definition with_emitted (f : list emission → list emission) (w : World) : World :=
  {| objects := objects w; mirror := mirror w; listeners := listeners w;
     emitted := f (emitted w); promises := promises w; toArray := toArray w;
     stream_close_calls := stream_close_calls w;
     stream_released := stream_released w; clock := clock w |}.

Definition with_promises (f : list promise → list promise) (w : World) : World :=
  {| objects := objects w; mirror := mirror w; listeners := listeners w;
     emitted := emitted w; promises := f (promises w); toArray := toArray w;
     stream_close_calls := stream_close_calls w;
     stream_released := stream_released w; clock := clock w |}.

Definition with_toArray (s : pstate) (w : World) : World :=
  {| objects := objects w; mirror := mirror w; listeners := listeners w;
     emitted := emitted w; promises := promises w; toArray := s;
     stream_close_calls := stream_close_calls w;
     stream_released := stream_released w; clock := clock w |}.

Definition with_stream_close_calls (f : list nat → list nat) (w : World) : World :=
  {| objects := objects w; mirror := mirror w; listeners := listeners w;
     emitted := emitted w; promises := promises w; toArray := toArray w;
     stream_close_calls := f (stream_close_calls w);
     stream_released := stream_released w; clock := clock w |}.

Definition with_stream_released (b : bool) (w : World) : World :=
  {| objects := objects w; mirror := mirror w; listeners := listeners w;
     emitted := emitted w; promises := promises w; toArray := toArray w;
     stream_close_calls := stream_close_calls w;
     stream_released := b; clock := clock w |}.

Definition with_clock (t : Z) (w : World) : World :=
  {| objects := objects w; mirror := mirror w; listeners := listeners w;
     emitted := emitted w; promises := promises w; toArray := toArray w;
     stream_close_calls := stream_close_calls w;
     stream_released := stream_released w; clock := t |}.

Definition set_cache (c : jsmap) (m : Mirror) : Mirror :=
  {| cache := c; changeStream := changeStream m; invalid := invalid m;
     closed := closed m; lastOpId := lastOpId m |}.

Definition set_changeStream (s : ChangeStream) (m : Mirror) : Mirror :=
  {| cache := cache m; changeStream := Some s; invalid := invalid m;
     closed := closed m; lastOpId := lastOpId m |}.

Definition set_invalid (m : Mirror) : Mirror :=
  {| cache := cache m; changeStream := changeStream m; invalid := true;
     closed := closed m; lastOpId := lastOpId m |}.

Definition set_closed (m : Mirror) : Mirror :=
  {| cache := cache m; changeStream := changeStream m; invalid := invalid m;
     closed := true; lastOpId := lastOpId m |}.

Definition set_lastOpId (v : value) (m : Mirror) : Mirror :=
  {| cache := cache m; changeStream := changeStream m; invalid := invalid m;
     closed := closed m; lastOpId := v |}.

(** ** A state and exception monad over [World]

    A JavaScript function body runs to a result or to an exception; in
    both cases the assignments made so far stay. *)

Definition M (A : Type) : Type := World → result A * World.

#[global] Instance M_ret : MRet M := λ A a w, (Ok a, w).
#[global] Instance M_bind : MBind M := λ A B k m w,
  match m w with
  | (Ok a, w') => k a w'
  | (Throw e, w') => (Throw e, w')
  end.

Definition throw {A : Type} (e : error) : M A := λ w, (Throw e, w).
Definition gets {A : Type} (f : World → A) : M A := λ w, (Ok (f w), w).
Definition modify (f : World → World) : M unit := λ w, (Ok tt, f w).
Definition lift {A : Type} (r : result A) : M A := λ w, (r, w).
Definition reads {A : Type} (f : World → result A) : M A := λ w, (f w, w).

(** [for (let x of xs) body(x)] *)
Fixpoint for_of {A : Type} (xs : list A) (body : A → M unit) : M unit :=
  match xs with
  | [] => mret tt
  | x :: xs' => body x ≫= λ _, for_of xs' body
  end.

(** ** The class and its helpers *)

(** Two functions the module takes from the platform and from the [sift]
    package stay abstract: [JSON.stringify], which may read the heap and
    returns a string or [undefined], and [sift(query)], the predicate of
    a query. *)
Class Platform : Type := {
  JSON_stringify : heap → value → value;
  sift : heap → value → value → bool
}.

Section LocalMongoDbCollectionMirror.

Context `{Platform}.

Definition isValid (m : Mirror) : bool := negb (invalid m).

Definition isReady (m : Mirror) : bool :=
  match changeStream m with Some _ => true | None => false end
  && negb (invalid m) && negb (closed m).

Definition isClosed (m : Mirror) : bool := closed m.

(** *** Promises *)

Definition new_promise (k : pkind) (s : pstate) : M nat :=
  n ← gets (λ w, length (promises w));
  modify (with_promises (λ ps, ps ++ [{| p_kind := k; p_state := s |}])) ;;
  mret n.

(** A promise settles once; later calls of [resolve] or [reject] are
    ignored. *)
Definition settle_promise (s : pstate) (pr : promise) : promise :=
  match p_state pr with
  | Pending => {| p_kind := p_kind pr; p_state := s |}
  | _ => pr
  end.

Definition settle (p : nat) (s : pstate) : M unit :=
  modify (with_promises (alter (settle_promise s) p)).

(** *** [close]: the inner function [closeStream]

    [stream.close().then(resolve).catch(reject)]: the call is recorded
    as outstanding; the driver settles it later. *)
Definition closeStream (stream : option ChangeStream) (p : nat) : M unit :=
  match stream with
  | None => throw TypeError
  | Some _ => modify (with_stream_close_calls (λ cs, cs ++ [p]))
  end.

(** *** The event emitter *)

Definition run_listener (l : listener) : M unit :=
  match l with
  | OnReadyResolve p => settle p Fulfilled
  | OnReadyCloseStream p =>
      s ← gets (λ w, changeStream (mirror w));
      closeStream s p
  end.

(** [mirror.emit(eventName, ...args)].  The listeners of callers are
    represented by the log [emitted]; the listeners the class registers
    itself are all on ['ready'] and run in registration order. *)
Definition emit (eventName : string) (args : list arg) : M unit :=
  m ← gets mirror;
  modify (with_emitted (λ es, es ++
    [{| ev_name := eventName; ev_args := args; ev_seen := m |}])) ;;
  if decide (eventName = "ready")
  then ls ← gets listeners; for_of ls run_listener
  else mret tt.

Definition doEmit (eventName : string) (args : list arg) : M unit :=
  m ← gets mirror;
  if isValid m then emit eventName args else mret tt.

(** *** The cache *)

Definition cacheKey (doc : value) : M value :=
  h ← gets objects;
  id ← lift (get_prop h doc "_id");
  mret (JSON_stringify h id).

(** [setCachedValue] is a plain function, called as
    [setCachedValue(keyDoc, doc, mirror)] in a strict-mode module: inside
    it, [this] is [undefined]. *)
Definition setCachedValue_this : arg := AValue VUndefined.

Definition setCachedValue (keyDoc doc : value) : M unit :=
  docKey ← cacheKey keyDoc;
  (if negb (nullish doc)
   then modify (with_mirror (λ m, set_cache (Map_set docKey doc (cache m)) m))
   else modify (with_mirror (λ m, set_cache (Map_delete docKey (cache m)) m))) ;;
  doEmit "changed" [setCachedValue_this; AValue docKey].

(** *** [changeHandler] *)

Definition changeHandler (c : change) : M unit :=
  modify (with_mirror (set_lastOpId (_id c))) ;;
  if bool_decide (operationType c ∈ ["delete"; "insert"; "replace"; "update"])
  then setCachedValue (documentKey c) (fullDocument c)
  else if bool_decide (operationType c = "invalidate")
  then
    doEmit "invalidated" [AMirror; AChange c] ;;
    modify (with_mirror set_invalid)
  else mret tt.

(** *** [close] and [waitUntilReady]

    [close] returns [new Promise(executor).then(() => this.closed = true)].
    The promise of the executor and the one [then] returns are one entry
    of [promises] here: it is fulfilled by [close_then], in the step in
    which [stream.close()] is fulfilled. *)
Definition close : M nat :=
  p ← new_promise PClose Pending;
  s ← gets (λ w, changeStream (mirror w));
  match s with
  | Some _ => closeStream s p
  | None => modify (with_listeners (λ ls, ls ++ [OnReadyCloseStream p]))
  end ;;
  mret p.

Definition close_then (p : nat) : M unit :=
  modify (with_mirror set_closed) ;;
  settle p Fulfilled.

Definition waitUntilReady : M nat :=
  s ← gets (λ w, changeStream (mirror w));
  match s with
  | None =>
      p ← new_promise PWaitUntilReady Pending;
      modify (with_listeners (λ ls, ls ++ [OnReadyResolve p])) ;;
      mret p
  | Some _ => new_promise PWaitUntilReady Fulfilled
  end.

(** *** Queries *)

Definition assertState (m : Mirror) : result unit :=
  if invalid m then Throw CollectionNoLongerValid
  else if closed m then Throw MirrorClosed
  else Ok tt.

Definition find (query : value) (w : World) : result (list value) :=
  match assertState (mirror w) with
  | Throw e => Throw e
  | Ok _ =>
      Ok (filter (λ v, sift (objects w) query v = true)
                 (Map_values (cache (mirror w))))
  end.

Definition get (key : value) (w : World) : result value :=
  let docKey := JSON_stringify (objects w) key in
  if negb (Map_has docKey (cache (mirror w)))
  then Throw (NoSuchKey docKey)
  else Ok (Map_get docKey (cache (mirror w))).

(** *** The constructor *)

(** The state right after [new LocalMongoDbCollectionMirror(collection)]
    at time [t0], with the heap [h]: the enumeration has been requested
    and is pending. *)
Definition constructor (h : heap) (t0 : Z) : World :=
  {| objects := h;
     mirror := {| cache := []; changeStream := None; invalid := false;
                  closed := false; lastOpId := VUndefined |};
     listeners := []; emitted := []; promises := [];
     toArray := Pending; stream_close_calls := [];
     stream_released := false; clock := t0 |}.

Definition Date_now : M Z := gets clock.

(** Declared by the module; the constructor writes the margin out, in
    seconds. *)
Definition THIRTY_SECONDS_AS_MS : Z := 30 * 1000.

(** [Object.assign({ fullDocument: 'updateLookup' }, options)], then
    [mirror.collection.watch([], options)]. *)
Definition buildChangeStream (startAt : Timestamp) : M ChangeStream :=
  mret {| pipeline := [];
          options := {| opt_fullDocument := "updateLookup";
                        opt_startAtOperationTime := startAt |} |}.

(** The callback given to [then] in the constructor. *)
Definition constructor_then (docs : list value) : M unit :=
  for_of docs (λ doc, setCachedValue doc doc) ;;
  now ← Date_now;
  s ← buildChangeStream (new_Timestamp 0 (now / 1000 - 30));
  modify (with_mirror (set_changeStream s)) ;;
  doEmit "ready" [AMirror].

(** ** The transition system

    What can happen to a mirror after its construction.  Change events
    are delivered by the change stream, so only once it exists.  A
    handler that throws leaves the assignments it made. *)
Inductive label : Type :=
| Tick (d : Z)
| ToArrayFulfilled (docs : list value)
| ToArrayRejected
| StreamChange (c : change)
| StreamCloseFulfilled (p : nat)   (* [stream.close()] is fulfilled: released *)
| StreamCloseRejected (p : nat)
| CallWaitUntilReady
| CallClose
| HeapChange (h : heap).

Definition step (l : label) (w : World) : option World :=
  match l with
  | Tick d =>
      if decide (0 ≤ d) then Some (with_clock (clock w + d) w) else None
  | ToArrayFulfilled docs =>
      if decide (toArray w = Pending)
      then Some (snd (constructor_then docs (with_toArray Fulfilled w)))
      else None
  | ToArrayRejected =>
      if decide (toArray w = Pending)
      then Some (with_toArray Rejected w)
      else None
  | StreamChange c =>
      match changeStream (mirror w) with
      | Some _ => Some (snd (changeHandler c w))
      | None => None
      end
  | StreamCloseFulfilled p =>
      if decide (p ∈ stream_close_calls w)
      then Some (snd (close_then p
             (with_stream_released true
               (with_stream_close_calls (filter (λ q, q ≠ p)) w))))
      else None
  | StreamCloseRejected p =>
      if decide (p ∈ stream_close_calls w)
      then Some (snd (settle p Rejected
             (with_stream_close_calls (filter (λ q, q ≠ p)) w)))
      else None
  | CallWaitUntilReady => Some (snd (waitUntilReady w))
  | CallClose => Some (snd (close w))
  | HeapChange h => Some (with_objects h w)
  end.

Fixpoint run (ls : list label) (w : World) : option World :=
  match ls with
  | [] => Some w
  | l :: ls' =>
      match step l w with
      | Some w' => run ls' w'
      | None => None
      end
  end.

(** The worlds a mirror can be in. *)
Definition reachable (w : World) : Prop :=
  ∃ h t0 ls, run ls (constructor h t0) = Some w.

(** ** Calling a method by name

    [mirror.name(...args)] looks [name] up on the instance: the methods
    of the class body first, then those inherited from [EventEmitter]
    and [Object].  A name that resolves to nothing evaluates to
    [undefined], and calling [undefined] raises a [TypeError].  The
    inherited methods and the two internal entry points are not given a
    behaviour here ([None]). *)
Inductive ret : Type :=
| RBool (b : bool)
| RValue (v : value)
| RArray (vs : list value)
| RPromise (p : nat).

Definition class_methods : list string :=
  ["constructor"; "changeHandler"; "close"; "find"; "get"; "isReady";
   "isValid"; "isClosed"; "waitUntilReady"].

Definition inherited_methods : list string :=
  ["setMaxListeners"; "getMaxListeners"; "emit"; "addListener"; "on";
   "prependListener"; "once"; "prependOnceListener"; "removeListener";
   "off"; "removeAllListeners"; "listeners"; "rawListeners";
   "listenerCount"; "eventNames";
   "hasOwnProperty"; "isPrototypeOf"; "propertyIsEnumerable"; "toString";
   "toLocaleString"; "valueOf"].

Definition arg0 (args : list value) : value := default VUndefined (head args).

Definition call_method (name : string) (args : list value) : option (M ret) :=
  if decide (name = "close") then Some (p ← close; mret (RPromise p))
  else if decide (name = "find")
  then Some (vs ← reads (find (arg0 args)); mret (RArray vs))
  else if decide (name = "get")
  then Some (v ← reads (get (arg0 args)); mret (RValue v))
  else if decide (name = "isReady")
  then Some (b ← gets (λ w, isReady (mirror w)); mret (RBool b))
  else if decide (name = "isValid")
  then Some (b ← gets (λ w, isValid (mirror w)); mret (RBool b))
  else if decide (name = "isClosed")
  then Some (b ← gets (λ w, isClosed (mirror w)); mret (RBool b))
  else if decide (name = "waitUntilReady")
  then Some (p ← waitUntilReady; mret (RPromise p))
  else if decide (name ∈ class_methods ++ inherited_methods) then None
  else Some (throw TypeError).

End LocalMongoDbCollectionMirror.

(** ** Sample data

    A platform that is right on the atoms the examples use:
    [JSON.stringify] on [undefined], [null], booleans, integers and
    strings with nothing to escape, and [sift({})], which matches every
    document.  References are rendered by their address; no example
    stringifies one. *)

Definition double_quote : string := String (Ascii.ascii_of_nat 34) EmptyString.

Definition stringify_atoms (h : heap) (v : value) : value :=
  match v with
  | VUndefined => VUndefined
  | VNull => VStr "null"
  | VBool true => VStr "true"
  | VBool false => VStr "false"
  | VNum n => VStr (pretty n)
  | VStr s => VStr (double_quote +:+ s +:+ double_quote)
  | VRef l => VStr ("#" +:+ pretty (Zpos l))
  end.

Definition sift_all (h : heap) (query v : value) : bool := true.

#[global] Instance atoms : Platform :=
  {| JSON_stringify := stringify_atoms; sift := sift_all |}.

(** [{ _id: 'abc', foo: 'bar' }] at address 1, the key document
    [{ _id: 'abc' }] at address 2, and the empty query [{}] at 3. *)
Definition sample_heap : heap :=
  {[ 1%positive := {[ "_id" := VStr "abc"; "foo" := VStr "bar" ]};
     2%positive := {[ "_id" := VStr "abc" ]};
     3%positive := ∅ ]}.

Definition doc_abc : value := VRef 1%positive.
Definition key_abc : value := VRef 2%positive.
Definition empty_query : value := VRef 3%positive.

Definition sample_insert : change :=
  {| _id := VNum 1; operationType := "insert";
     documentKey := key_abc; fullDocument := doc_abc |}.

Definition sample_update_gone : change :=
  {| _id := VNum 2; operationType := "update";
     documentKey := key_abc; fullDocument := VNull |}.

Definition sample_delete : change :=
  {| _id := VNum 3; operationType := "delete";
     documentKey := key_abc; fullDocument := VUndefined |}.

Definition sample_invalidate : change :=
  {| _id := VNum 4; operationType := "invalidate";
     documentKey := VUndefined; fullDocument := VUndefined |}.

Definition sample_drop : change :=
  {| _id := VNum 5; operationType := "drop";
     documentKey := VUndefined; fullDocument := VUndefined |}.

(** The world of a run, or the fresh world when the run is not possible
    (every run below is). *)
Definition world_after (ls : list label) : World :=
  default (constructor sample_heap 0) (run ls (constructor sample_heap 0)).

(** ['"abc"'], the cache key of the sample document. *)
Definition cache_key_abc : value :=
  VStr (double_quote +:+ "abc" +:+ double_quote).

Definition fresh_world : World := constructor sample_heap 0.

(** Seeded with the sample document and ready. *)
Definition ready_world : World := world_after [ToArrayFulfilled [doc_abc]].

(** Ready, then invalidated. *)
Definition invalid_world : World :=
  world_after [ToArrayFulfilled [doc_abc]; StreamChange sample_invalidate].

(** Ready, then closed. *)
Definition closed_world : World :=
  world_after [ToArrayFulfilled [doc_abc]; CallClose; StreamCloseFulfilled 0].

(** The enumeration delivers the sample document and then [null]: the
    seeding loop stops there, and the mirror stays initializing with the
    sample document loaded. *)
Definition partly_seeded_world : World :=
  world_after [ToArrayFulfilled [doc_abc; VNull]].

(** One caller waits, then the enumeration fails. *)
Definition failed_world : World :=
  world_after [CallWaitUntilReady; ToArrayRejected].

(** The enumeration takes a hundred seconds. *)
Definition slow_world : World :=
  world_after [Tick 100000; ToArrayFulfilled [doc_abc]].

(** A caller writes [doc.foo = 'baz'] through the reference [find] gave. *)
Definition heap_after_caller_write : heap :=
  set_prop (objects ready_world) 1%positive "foo" (VStr "baz").

(** ** Vocabulary of the properties *)

#[global] Instance error_eq_dec : EqDecision error.
Proof. solve_decision. Defined.
#[global] Instance result_eq_dec {A : Type} `{EqDecision A} : EqDecision (result A).
Proof. solve_decision. Defined.

(** The cache holds document [d] under key [k]; it holds nothing under
    key [k]. *)
Definition holds (m : jsmap) (k d : value) : Prop :=
  Map_has k m = true ∧ Map_get k m = d.

Definition absent (m : jsmap) (k : value) : Prop := Map_has k m = false.

(** What the listeners of ['ready'] do when they run: the promises of
    [waitUntilReady] are fulfilled, and each deferred [close] calls
    [stream.close()]. *)
Definition resolve_all (ls : list listener) (ps : list promise) : list promise :=
  foldl (λ ps l, match l with
                 | OnReadyResolve p => alter (settle_promise Fulfilled) p ps
                 | OnReadyCloseStream _ => ps
                 end) ps ls.

Definition closers (ls : list listener) : list nat :=
  omap (λ l, match l with
             | OnReadyCloseStream p => Some p
             | OnReadyResolve _ => None
             end) ls.

(** The stream [constructor_then] builds when the clock shows [now]. *)
Definition stream_at (now : Z) : ChangeStream :=
  {| pipeline := [];
     options := {| opt_fullDocument := "updateLookup";
                   opt_startAtOperationTime :=
                     new_Timestamp 0 (now / 1000 - 30) |} |}.

(** The notification [name] with arguments [args], seen with fields [m]. *)
Definition notification (name : string) (args : list arg) (m : Mirror) : emission :=
  {| ev_name := name; ev_args := args; ev_seen := m |}.

Section Vocabulary.

Context `{Platform}.

(** The cache key of a change event: [cacheKey(change.documentKey)]. *)
Definition event_key (h : heap) (c : change) : result value :=
  match get_prop h (documentKey c) "_id" with
  | Ok id => Ok (JSON_stringify h id)
  | Throw e => Throw e
  end.

(** The four kinds that carry a document key. *)
Definition data_kind (c : change) : bool :=
  bool_decide (operationType c ∈ ["delete"; "insert"; "replace"; "update"]).

(** The data model of change events: a delete event has no document. *)
Definition delete_carries_no_document (c : change) : Prop :=
  operationType c = "delete" → nullish (fullDocument c) = true.

(** The change stream delivers the events of [cs] one after the other. *)
Definition apply_changes (cs : list change) (w : World) : World :=
  foldl (λ w c, snd (changeHandler c w)) w cs.

(** The last event of [cs] that is of a data kind and has key [k]. *)
Fixpoint last_event_for (h : heap) (k : value) (cs : list change) : option change :=
  match cs with
  | [] => None
  | c :: cs' =>
      match last_event_for h k cs' with
      | Some c' => Some c'
      | None =>
          if data_kind c && bool_decide (event_key h c = Ok k)
          then Some c else None
      end
  end.

(** How many notifications of a name were emitted. *)
Definition emitted_count (name : string) (w : World) : nat :=
  length (filter (λ e, ev_name e = name) (emitted w)).

(** The state of promise [p]. *)
Definition promise_is (w : World) (p : nat) (k : pkind) (s : pstate) : Prop :=
  promises w !! p = Some {| p_kind := k; p_state := s |}.

End Vocabulary.

(** The part of the world the control invariant reads. *)
Definition control (w : World) :=
  (changeStream (mirror w), invalid (mirror w), closed (mirror w),
   listeners w, promises w, toArray w, stream_close_calls w,
   stream_released w).

(** The invariant of the control state: the flags, the change stream,
    the promises and the calls of [stream.close()]. *)
Record control_invariant (w : World) : Prop := {
  (** before the stream exists nothing is invalid, closed, released or
      settled *)
  inv_initializing :
    changeStream (mirror w) = None →
    invalid (mirror w) = false ∧ closed (mirror w) = false ∧
    stream_close_calls w = [] ∧ stream_released w = false ∧
    Forall (λ pr, p_state pr = Pending) (promises w);
  (** the stream is built by the callback of the enumeration only *)
  inv_stream_after_enumeration :
    toArray w ≠ Fulfilled → changeStream (mirror w) = None;
  inv_closed_released :
    closed (mirror w) = true → stream_released w = true;
  inv_close_fulfilled_released :
    ∀ p, promise_is w p PClose Fulfilled → stream_released w = true;
  inv_wait_not_rejected :
    ∀ p, ¬ promise_is w p PWaitUntilReady Rejected;
  inv_close_calls_pending :
    ∀ p, p ∈ stream_close_calls w → promise_is w p PClose Pending;
  inv_resolve_listeners :
    ∀ p, OnReadyResolve p ∈ listeners w →
         ∃ s, promise_is w p PWaitUntilReady s;
  inv_close_listeners :
    ∀ p, OnReadyCloseStream p ∈ listeners w → ∃ s, promise_is w p PClose s;
  inv_deferred_close_registered :
    changeStream (mirror w) = None →
    ∀ p s, promise_is w p PClose s → OnReadyCloseStream p ∈ listeners w
}.

(** A [changed] notification as [setCachedValue] emits it: seen by a
    valid mirror, with [undefined] and the cache key as arguments. *)
Definition changed_notification (e : emission) : Prop :=
  ev_name e = "changed" ∧ invalid (ev_seen e) = false
  ∧ ∃ k, ev_args e = [AValue VUndefined; AValue k].

(** The arguments each kind of notification is emitted with. *)
Definition payload_as_emitted (e : emission) : Prop :=
  (ev_name e = "changed" ∧ ∃ k, ev_args e = [AValue VUndefined; AValue k])
  ∨ (ev_name e = "ready" ∧ ev_args e = [AMirror])
  ∨ (ev_name e = "invalidated" ∧ ∃ c, ev_args e = [AMirror; AChange c]).

(** [invalidated] notifications in a stretch of the log. *)
Definition invalidated_in (es : list emission) : list emission :=
  filter (λ e, ev_name e = "invalidated") es.

(** The invariant of the log of notifications. *)
Record log_invariant (w : World) : Prop := {
  inv_seen_valid : Forall (λ e, invalid (ev_seen e) = false) (emitted w);
  inv_valid_no_invalidated :
    invalid (mirror w) = false → invalidated_in (emitted w) = [];
  inv_invalidated_once : (length (invalidated_in (emitted w)) ≤ 1)%nat;
  inv_payloads : Forall payload_as_emitted (emitted w)
}.

(** ** Vocabulary of the further properties *)

(** [ready] notifications in a stretch of the log. *)
Definition ready_in (es : list emission) : list emission :=
  filter (λ e, ev_name e = "ready") es.

Section FurtherVocabulary.

Context `{Platform}.

(** The cache key of a document: [cacheKey(doc)]. *)
Definition document_key (h : heap) (doc : value) : result value :=
  match get_prop h doc "_id" with
  | Ok id => Ok (JSON_stringify h id)
  | Throw e => Throw e
  end.

(** The cache after the seeding loop has stored the documents of [docs],
    in order, into [m]. *)
Definition seed_cache (h : heap) (docs : list value) (m : jsmap) : jsmap :=
  foldl (λ m doc, match document_key h doc with
                  | Ok k => Map_set k doc m
                  | Throw _ => m
                  end) m docs.

(** The last document of [docs] with key [k]. *)
Fixpoint last_doc_for (h : heap) (k : value) (docs : list value) : option value :=
  match docs with
  | [] => None
  | d :: ds =>
      match last_doc_for h k ds with
      | Some d' => Some d'
      | None => if bool_decide (document_key h d = Ok k) then Some d else None
      end
  end.

(** Where the promises stand, given whether the stream exists. *)
Record settlement_invariant (w : World) : Prop := {
  inv_stream_shape :
    ∀ s, changeStream (mirror w) = Some s → ∃ now, s = stream_at now;
  inv_waiters_fulfilled :
    is_Some (changeStream (mirror w)) →
    ∀ p s, promise_is w p PWaitUntilReady s → s = Fulfilled;
  inv_waiters_registered :
    changeStream (mirror w) = None →
    ∀ p s, promise_is w p PWaitUntilReady s → OnReadyResolve p ∈ listeners w;
  inv_closes_outstanding :
    is_Some (changeStream (mirror w)) →
    ∀ p, promise_is w p PClose Pending → p ∈ stream_close_calls w;
  inv_close_fulfilled_closed :
    ∀ p, promise_is w p PClose Fulfilled → closed (mirror w) = true
}.

(** How often [ready] and [invalidated] were emitted, given the state. *)
Record count_invariant (w : World) : Prop := {
  inv_ready_count :
    length (ready_in (emitted w)) =
      match changeStream (mirror w) with Some _ => 1%nat | None => 0%nat end;
  inv_invalidated_count :
    invalid (mirror w) = true →
    length (invalidated_in (emitted w)) = 1%nat
}.

End FurtherVocabulary.

(** ** Properties *)

(** *** The [Map] *)

Lemma Map_has_set_eq k v (m : jsmap) : Map_has k (Map_set k v m) = true.
Proof.
  induction m as [|[k' v'] m IH]; simpl.
  - by rewrite decide_True.
  - destruct (decide (k' = k)) as [->|Hne]; simpl.
    + by rewrite decide_True.
    + by rewrite decide_False.
Qed.

Lemma Map_get_set_eq k v (m : jsmap) : Map_get k (Map_set k v m) = v.
Proof.
  induction m as [|[k' v'] m IH]; simpl.
  - by rewrite decide_True.
  - destruct (decide (k' = k)) as [->|Hne]; simpl.
    + by rewrite decide_True.
    + by rewrite decide_False.
Qed.

Lemma Map_has_set_ne k k' v (m : jsmap) :
  k ≠ k' → Map_has k' (Map_set k v m) = Map_has k' m.
Proof.
  intros Hne. induction m as [|[k0 v0] m IH]; simpl.
  - by rewrite decide_False.
  - destruct (decide (k0 = k)) as [->|Hne0]; simpl.
    + by rewrite !decide_False.
    + by rewrite IH.
Qed.

Lemma Map_get_set_ne k k' v (m : jsmap) :
  k ≠ k' → Map_get k' (Map_set k v m) = Map_get k' m.
Proof.
  intros Hne. induction m as [|[k0 v0] m IH]; simpl.
  - by rewrite decide_False.
  - destruct (decide (k0 = k)) as [->|Hne0]; simpl.
    + by rewrite !decide_False.
    + by rewrite IH.
Qed.

Lemma Map_has_delete_eq k (m : jsmap) : Map_has k (Map_delete k m) = false.
Proof.
  induction m as [|[k' v'] m IH]; simpl; [done|].
  destruct (decide (k' = k)) as [->|Hne]; simpl; [done|].
  by rewrite decide_False.
Qed.

Lemma Map_has_delete_ne k k' (m : jsmap) :
  k ≠ k' → Map_has k' (Map_delete k m) = Map_has k' m.
Proof.
  intros Hne. induction m as [|[k0 v0] m IH]; simpl; [done|].
  destruct (decide (k0 = k)) as [->|Hne0]; simpl.
  - by rewrite decide_False.
  - by rewrite IH.
Qed.

Lemma Map_get_delete_ne k k' (m : jsmap) :
  k ≠ k' → Map_get k' (Map_delete k m) = Map_get k' m.
Proof.
  intros Hne. induction m as [|[k0 v0] m IH]; simpl; [done|].
  destruct (decide (k0 = k)) as [->|Hne0]; simpl.
  - by rewrite decide_False.
  - by rewrite IH.
Qed.

(** Deleting a key that is not there changes nothing. *)
Lemma Map_delete_absent k (m : jsmap) :
  Map_has k m = false → Map_delete k m = m.
Proof.
  induction m as [|[k0 v0] m IH]; simpl; [done|].
  destruct (decide (k0 = k)) as [->|Hne0]; [done|].
  intros Hm. by rewrite IH.
Qed.

Lemma Map_set_idem k v (m : jsmap) : Map_set k v (Map_set k v m) = Map_set k v m.
Proof.
  induction m as [|[k' v'] m IH]; simpl.
  - by rewrite decide_True.
  - destruct (decide (k' = k)) as [->|Hne]; simpl.
    + by rewrite decide_True.
    + rewrite decide_False by done. by rewrite IH.
Qed.

Lemma Map_delete_idem k (m : jsmap) :
  Map_delete k (Map_delete k m) = Map_delete k m.
Proof. apply Map_delete_absent, Map_has_delete_eq. Qed.

Lemma Map_set_holds k v (m : jsmap) : holds m k v → Map_set k v m = m.
Proof.
  intros [Hhas Hget]. induction m as [|[k' v'] m IH]; simpl in *; [done|].
  destruct (decide (k' = k)) as [->|Hne]; [by subst|]. by rewrite IH.
Qed.

Lemma Map_set_fresh k v (m : jsmap) :
  Map_has k m = false → Map_set k v m = m ++ [(k, v)].
Proof.
  induction m as [|[k' v'] m IH]; simpl; [done|].
  destruct (decide (k' = k)) as [->|Hne]; [done|]. intros Hm. by rewrite IH.
Qed.

Lemma Map_has_elem_of k (m : jsmap) : Map_has k m = true ↔ k ∈ m.*1.
Proof.
  induction m as [|[k' v'] m IH]; simpl.
  - split; [done|]. by intros ?%elem_of_nil.
  - rewrite elem_of_cons. destruct (decide (k' = k)) as [->|Hne].
    + split; auto.
    + rewrite IH. split; [auto|]. intros [?|?]; [congruence|done].
Qed.

Lemma Map_set_keys k v (m : jsmap) :
  (Map_set k v m).*1 = if Map_has k m then m.*1 else m.*1 ++ [k].
Proof.
  induction m as [|[k' v'] m IH]; [done|]. cbn [Map_set Map_has].
  destruct (decide (k' = k)) as [->|Hne]; [done|].
  rewrite !fmap_cons, IH. by destruct (Map_has k m).
Qed.

Lemma Map_delete_keys k (m : jsmap) :
  (Map_delete k m).*1 = filter (λ k', k' ≠ k) m.*1.
Proof.
  induction m as [|[k' v'] m IH]; [done|]. cbn [Map_delete].
  rewrite fmap_cons. cbn [fst].
  destruct (decide (k' = k)) as [->|Hne].
  - rewrite filter_cons_False by (by intros ?). done.
  - rewrite filter_cons_True by done. by rewrite fmap_cons, IH.
Qed.

(** The keys of a [Map] are distinct, and stay so. *)
Lemma Map_set_NoDup k v (m : jsmap) : NoDup m.*1 → NoDup (Map_set k v m).*1.
Proof.
  intros Hnd. rewrite Map_set_keys. destruct (Map_has k m) eqn:Hk; [done|].
  apply NoDup_app. split_and!; [done| |apply NoDup_singleton].
  intros k' Hin ->%list_elem_of_singleton.
  apply Map_has_elem_of in Hin. congruence.
Qed.

Lemma Map_delete_NoDup k (m : jsmap) : NoDup m.*1 → NoDup (Map_delete k m).*1.
Proof. intros Hnd. rewrite Map_delete_keys. by apply NoDup_filter. Qed.

(** With distinct keys, the values the [Map] iterates over are those a
    key leads to. *)
Lemma elem_of_Map_values (m : jsmap) v :
  NoDup m.*1 → v ∈ Map_values m ↔ ∃ k, holds m k v.
Proof.
  unfold Map_values, holds. induction m as [|[k' v'] m IH].
  - intros _. split; [by intros ?%elem_of_nil|]. by intros (k & [=] & _).
  - rewrite fmap_cons. cbn [fst map snd Map_has Map_get].
    intros [Hnotin Hnd]%NoDup_cons. rewrite elem_of_cons, (IH Hnd). split.
    + intros [->|(k & Hhas & Hget)].
      * exists k'. by rewrite !decide_True.
      * exists k. rewrite !decide_False; [done|..];
          intros ->; apply Hnotin; by apply Map_has_elem_of.
    + intros (k & Hhas & Hget). destruct (decide (k' = k)) as [->|Hne].
      * by left.
      * right. by exists k.
Qed.

(** *** What each function does to the world *)

Ltac run_monad :=
  repeat (progress (cbv beta delta
    [mbind M_bind mret M_ret gets modify lift reads throw]; simpl)).

Section Properties.

Context `{Platform}.

Lemma setCachedValue_throws keyDoc doc w e :
  get_prop (objects w) keyDoc "_id" = Throw e →
  setCachedValue keyDoc doc w = (Throw e, w).
Proof.
  intros Hk. unfold setCachedValue, cacheKey, mbind, M_bind, gets, lift.
  simpl. by rewrite Hk.
Qed.

Lemma setCachedValue_runs keyDoc doc w id :
  get_prop (objects w) keyDoc "_id" = Ok id →
  let k := JSON_stringify (objects w) id in
  let m' := set_cache (if nullish doc then Map_delete k (cache (mirror w))
                       else Map_set k doc (cache (mirror w))) (mirror w) in
  setCachedValue keyDoc doc w =
    (Ok tt,
     with_emitted (λ es, if invalid (mirror w) then es else es ++
        [notification "changed" [AValue VUndefined; AValue k] m'])
       (with_mirror (λ _, m') w)).
Proof.
  intros Hk. unfold setCachedValue, cacheKey, doEmit, emit, isValid,
    mbind, M_bind, mret, M_ret, gets, lift, modify.
  simpl. rewrite Hk. destruct w as [h m ls es ps ta sc sr ck]; simpl.
  destruct (nullish doc), (invalid m) eqn:Hi; simpl; rewrite ?Hi; reflexivity.
Qed.

Lemma changeHandler_data c w :
  data_kind c = true →
  changeHandler c w =
    setCachedValue (documentKey c) (fullDocument c)
      (with_mirror (set_lastOpId (_id c)) w).
Proof.
  unfold data_kind, changeHandler, mbind, M_bind, modify. simpl.
  by intros ->.
Qed.

Lemma changeHandler_invalidate c w :
  operationType c = "invalidate" →
  let m1 := set_lastOpId (_id c) (mirror w) in
  changeHandler c w =
    (Ok tt,
     with_emitted (λ es, if invalid (mirror w) then es else es ++
        [notification "invalidated" [AMirror; AChange c] m1])
       (with_mirror (λ _, set_invalid m1) w)).
Proof.
  intros Hop. unfold changeHandler, doEmit, emit, isValid,
    mbind, M_bind, mret, M_ret, gets, modify.
  rewrite Hop. simpl.
  destruct w as [h m ls es ps ta sc sr ck]; simpl.
  destruct (invalid m) eqn:Hi; simpl; reflexivity.
Qed.

Lemma changeHandler_other c w :
  data_kind c = false → operationType c ≠ "invalidate" →
  changeHandler c w = (Ok tt, with_mirror (set_lastOpId (_id c)) w).
Proof.
  unfold data_kind, changeHandler, mbind, M_bind, mret, M_ret, modify. simpl.
  intros -> Hne. by rewrite bool_decide_eq_false_2.
Qed.


(** The seeding loop touches the cache and the log only, and every
    notification it emits is a [changed] one seen by a valid mirror. *)
Lemma seeding_effect docs w :
  ∃ r c' es,
    for_of docs (λ doc, setCachedValue doc doc) w =
      (r, with_emitted (λ es0, es0 ++ es) (with_mirror (set_cache c') w))
    ∧ Forall changed_notification es
    ∧ (invalid (mirror w) = true → es = []).
Proof.
  revert w. induction docs as [|doc docs IH]; intros w.
  - exists (Ok tt), (cache (mirror w)), []. split_and!; [|done..].
    destruct w as [h [c s i cl lo] ls es ps ta sc sr ck]; simpl.
    unfold mret, M_ret, with_emitted, with_mirror, set_cache; simpl.
    by rewrite app_nil_r.
  - simpl. unfold mbind, M_bind.
    destruct (get_prop (objects w) doc "_id") as [id|e] eqn:Hk.
    + rewrite (setCachedValue_runs _ _ _ _ Hk).
      match goal with |- context [for_of docs _ ?w1] =>
        destruct (IH w1) as (r & c' & es & -> & Hes & Hinv) end.
      destruct w as [h [c s i cl lo] ls es0 ps ta sc sr ck]; simpl in *.
      destruct i; simpl in *.
      * exists r, c', []. rewrite (Hinv eq_refl). split_and!; [|done..].
        unfold with_emitted, with_mirror, set_cache; simpl. done.
      * eexists r, c', (_ :: es). split_and!; [| |done].
        -- unfold with_emitted, with_mirror, set_cache; simpl.
           by rewrite <- app_assoc.
        -- constructor; [|done]. split_and!; [done..|]. by eexists.
    + rewrite (setCachedValue_throws _ _ _ _ Hk).
      exists (Throw e), (cache (mirror w)), []. split_and!; [|done..].
      destruct w as [h [c s i cl lo] ls es ps ta sc sr ck]; simpl.
      unfold with_emitted, with_mirror, set_cache; simpl.
      by rewrite app_nil_r.
Qed.

(** With the stream in place, the listeners of ['ready'] all run. *)
Lemma ready_listeners_effect ls w s :
  changeStream (mirror w) = Some s →
  for_of ls run_listener w =
    (Ok tt,
     with_stream_close_calls (λ cs, cs ++ closers ls)
       (with_promises (resolve_all ls) w)).
Proof.
  revert w. induction ls as [|l ls IH]; intros w Hs.
  - destruct w as [h m ls es ps ta sc sr ck]; simpl.
    unfold mret, M_ret, with_stream_close_calls, with_promises; simpl.
    by rewrite app_nil_r.
  - simpl. unfold mbind, M_bind. destruct l as [p|p]; simpl.
    + unfold settle, modify. rewrite IH by done.
      destruct w as [h m ls0 es ps ta sc sr ck]; simpl. done.
    + run_monad. unfold closeStream. rewrite Hs. run_monad.
      rewrite IH by done.
      destruct w as [h m ls0 es ps ta sc sr ck]; simpl.
      unfold with_stream_close_calls, with_promises; simpl.
      by rewrite <- app_assoc.
Qed.

(** The callback of the enumeration, run before the stream exists: either
    the seeding loop throws and only the cache and the log change, or the
    stream is built from the clock, ['ready'] is emitted and its
    listeners run. *)
Lemma constructor_then_effect docs w :
  changeStream (mirror w) = None → invalid (mirror w) = false →
  ∃ c' es,
    Forall changed_notification es ∧
    let m0 := set_cache c' (mirror w) in
    let m1 := set_changeStream (stream_at (clock w)) m0 in
    (snd (constructor_then docs w) =
       with_emitted (λ es0, es0 ++ es) (with_mirror (λ _, m0) w)
     ∨ snd (constructor_then docs w) =
         with_stream_close_calls (λ cs, cs ++ closers (listeners w))
           (with_promises (resolve_all (listeners w))
              (with_emitted
                 (λ es0, es0 ++ es ++ [notification "ready" [AMirror] m1])
                 (with_mirror (λ _, m1) w)))).
Proof.
  intros Hs Hi. unfold constructor_then.
  destruct (seeding_effect docs w) as (r & c' & es & Hrun & Hes & _).
  exists c', es. split; [done|].
  cbv beta delta [mbind M_bind]. rewrite Hrun.
  destruct r as [[]|e].
  - right. unfold Date_now, buildChangeStream, doEmit, emit, isValid.
    run_monad. rewrite Hi. run_monad.
    erewrite ready_listeners_effect by (simpl; reflexivity).
    destruct w as [h [c s i cl lo] ls es0 ps ta sc sr ck].
    cbv [with_stream_close_calls with_promises with_emitted with_mirror
         objects mirror listeners emitted promises toArray
         stream_close_calls stream_released clock].
    by rewrite <- app_assoc.
  - left. simpl.
    destruct w as [h [c s i cl lo] ls es0 ps ta sc sr ck]; simpl in *. done.
Qed.

(** *** Promises: settling keeps the kind and touches one entry *)

Lemma settle_promise_kind s pr : p_kind (settle_promise s pr) = p_kind pr.
Proof. unfold settle_promise. by destruct (p_state pr). Qed.

Lemma settle_promise_state s pr :
  p_state (settle_promise s pr) = p_state pr ∨
  (p_state pr = Pending ∧ p_state (settle_promise s pr) = s).
Proof.
  unfold settle_promise. destruct (p_state pr) eqn:E; simpl; rewrite ?E; auto.
Qed.

Lemma lookup_settle_inv s q (ps : list promise) p pr' :
  alter (settle_promise s) q ps !! p = Some pr' →
  ∃ pr, ps !! p = Some pr ∧ p_kind pr' = p_kind pr ∧
        (p_state pr' = p_state pr ∨
         (p = q ∧ p_state pr = Pending ∧ p_state pr' = s)).
Proof.
  destruct (decide (q = p)) as [->|Hne].
  - rewrite list_lookup_alter_eq. destruct (ps !! p) as [pr|]; simpl; [|done].
    intros [= <-]. exists pr. split; [done|].
    split; [apply settle_promise_kind|].
    destruct (settle_promise_state s pr) as [?|[? ?]]; auto.
  - rewrite list_lookup_alter_ne by done. intros Hp. exists pr'. auto.
Qed.

Lemma lookup_settle s q (ps : list promise) p pr :
  ps !! p = Some pr →
  alter (settle_promise s) q ps !! p =
    Some (if decide (q = p) then settle_promise s pr else pr).
Proof.
  intros Hp. destruct (decide (q = p)) as [->|Hne].
  - by rewrite list_lookup_alter_eq, Hp.
  - by rewrite list_lookup_alter_ne.
Qed.

Lemma lookup_resolve_all ls (ps : list promise) p pr :
  ps !! p = Some pr →
  resolve_all ls ps !! p =
    Some (if decide (OnReadyResolve p ∈ ls)
          then settle_promise Fulfilled pr else pr).
Proof.
  revert ps pr. induction ls as [|l ls IH]; intros ps pr Hp.
  - rewrite decide_False by apply not_elem_of_nil. done.
  - change (resolve_all (l :: ls) ps) with
      (resolve_all ls (match l with
                       | OnReadyResolve q => alter (settle_promise Fulfilled) q ps
                       | OnReadyCloseStream _ => ps
                       end)).
    destruct l as [q|q].
    + erewrite IH by (apply lookup_settle; eassumption).
      destruct (decide (q = p)) as [->|Hne].
      * rewrite (decide_True (P := OnReadyResolve p ∈ OnReadyResolve p :: ls))
          by apply list_elem_of_here.
        destruct (decide (OnReadyResolve p ∈ ls)); [|done].
        f_equal. by destruct pr as [k []].
      * destruct (decide (OnReadyResolve p ∈ ls)) as [Hin|Hnin].
        -- by rewrite decide_True by (by apply list_elem_of_further).
        -- rewrite decide_False; [done|].
           rewrite elem_of_cons. intros [[=]|?]; congruence.
    + erewrite IH by eassumption.
      destruct (decide (OnReadyResolve p ∈ ls)) as [Hin|Hnin].
      * by rewrite decide_True by (by apply list_elem_of_further).
      * rewrite decide_False; [done|].
        rewrite elem_of_cons. intros [[=]|?]; congruence.
Qed.

Lemma lookup_resolve_all_inv ls (ps : list promise) p pr' :
  resolve_all ls ps !! p = Some pr' →
  ∃ pr, ps !! p = Some pr ∧
        pr' = if decide (OnReadyResolve p ∈ ls)
              then settle_promise Fulfilled pr else pr.
Proof.
  intros Hp. destruct (ps !! p) as [pr|] eqn:Hps.
  - exists pr. split; [done|].
    rewrite (lookup_resolve_all _ _ _ _ Hps) in Hp. congruence.
  - exfalso. assert (length (resolve_all ls ps) = length ps) as Hlen.
    { clear. revert ps. induction ls as [|[q|q] ls IH]; intros ps; simpl;
        [done| |done]. by rewrite IH, length_alter. }
    apply lookup_lt_Some in Hp. apply lookup_ge_None in Hps. lia.
Qed.

Lemma elem_of_closers ls p : p ∈ closers ls ↔ OnReadyCloseStream p ∈ ls.
Proof.
  unfold closers. rewrite list_elem_of_omap. split.
  - intros ([q|q] & Hin & Heq); simplify_eq. done.
  - intros Hin. by exists (OnReadyCloseStream p).
Qed.

(** *** The control invariant *)

Lemma control_invariant_ext w w' :
  control w' = control w → control_invariant w → control_invariant w'.
Proof.
  unfold control. intros [= Hs Hi Hc Hl Hp Ht Hsc Hsr] [I1 I2 I3 I4 I5 I6 I7 I8 I9].
  unfold promise_is in *.
  split; unfold promise_is; rewrite ?Hs, ?Hi, ?Hc, ?Hl, ?Hp, ?Ht, ?Hsc, ?Hsr;
    assumption.
Qed.

(** [changeHandler] leaves the control state alone, but for the flag
    [invalid], which it may set. *)
Lemma changeHandler_control c w :
  let w' := snd (changeHandler c w) in
  control w' = control w ∨
  (operationType c = "invalidate" ∧
   control w' = control (with_mirror set_invalid w)).
Proof.
  destruct (data_kind c) eqn:Hd.
  - left. rewrite changeHandler_data by done.
    destruct (get_prop (objects (with_mirror (set_lastOpId (_id c)) w))
                (documentKey c) "_id") as [id|e] eqn:Hk.
    + rewrite (setCachedValue_runs _ _ _ _ Hk). by destruct w as [? [] ?].
    + rewrite (setCachedValue_throws _ _ _ _ Hk). by destruct w as [? [] ?].
  - destruct (decide (operationType c = "invalidate")) as [Hop|Hop].
    + right. split; [done|]. rewrite changeHandler_invalidate by done.
      by destruct w as [? [] ?].
    + left. rewrite changeHandler_other by done. by destruct w as [? [] ?].
Qed.

Lemma control_invariant_invalid w s :
  changeStream (mirror w) = Some s →
  control_invariant w → control_invariant (with_mirror set_invalid w).
Proof.
  intros Hs [I1 I2 I3 I4 I5 I6 I7 I8 I9].
  destruct w as [h [c cs i cl lo] ls es ps ta sc sr ck]; simpl in *.
  subst cs. split; unfold promise_is in *; simpl in *; try done.
Qed.

Lemma control_invariant_changeHandler c w s :
  changeStream (mirror w) = Some s →
  control_invariant w → control_invariant (snd (changeHandler c w)).
Proof.
  intros Hs Hinv. destruct (changeHandler_control c w) as [Hc|[_ Hc]].
  - by eapply control_invariant_ext.
  - eapply control_invariant_ext; [exact Hc|].
    by eapply control_invariant_invalid.
Qed.

Lemma waitUntilReady_effect w :
  waitUntilReady w =
    match changeStream (mirror w) with
    | None =>
        (Ok (length (promises w)),
         with_listeners (λ ls, ls ++ [OnReadyResolve (length (promises w))])
           (with_promises
              (λ ps, ps ++ [{| p_kind := PWaitUntilReady; p_state := Pending |}])
              w))
    | Some _ =>
        (Ok (length (promises w)),
         with_promises
           (λ ps, ps ++ [{| p_kind := PWaitUntilReady; p_state := Fulfilled |}])
           w)
    end.
Proof.
  unfold waitUntilReady, new_promise. run_monad.
  destruct (changeStream (mirror w)); run_monad; reflexivity.
Qed.

Lemma close_effect w :
  close w =
    (Ok (length (promises w)),
     match changeStream (mirror w) with
     | None =>
         with_listeners (λ ls, ls ++ [OnReadyCloseStream (length (promises w))])
           (with_promises
              (λ ps, ps ++ [{| p_kind := PClose; p_state := Pending |}]) w)
     | Some _ =>
         with_stream_close_calls (λ cs, cs ++ [length (promises w)])
           (with_promises
              (λ ps, ps ++ [{| p_kind := PClose; p_state := Pending |}]) w)
     end).
Proof.
  unfold close, new_promise, closeStream. run_monad.
  destruct (changeStream (mirror w)); run_monad; reflexivity.
Qed.

Lemma promise_is_snoc p k s (x : promise) (ps : list promise) :
  (ps ++ [x]) !! p = Some {| p_kind := k; p_state := s |} ↔
  ps !! p = Some {| p_kind := k; p_state := s |}
  ∨ (p = length ps ∧ x = {| p_kind := k; p_state := s |}).
Proof.
  rewrite lookup_snoc_Some. split.
  - intros [[_ ?]|[? ?]]; auto.
  - intros [Hp|[? ?]]; [left|right]; [|done].
    split; [|done]. by eapply lookup_lt_Some.
Qed.

Lemma control_invariant_waitUntilReady w :
  control_invariant w → control_invariant (snd (waitUntilReady w)).
Proof.
  intros [I1 I2 I3 I4 I5 I6 I7 I8 I9]. rewrite waitUntilReady_effect.
  destruct w as [h [c cs i cl lo] ls es ps ta sc sr ck].
  unfold promise_is in *; simpl in *.
  destruct cs as [s|]; simpl; split; unfold promise_is; simpl.
  - done.
  - exact I2.
  - exact I3.
  - intros p [Hp|[_ [=]]]%promise_is_snoc. eauto.
  - intros p [Hp|[_ [=]]]%promise_is_snoc. by eapply I5.
  - intros p Hp. apply promise_is_snoc. left. by apply I6.
  - intros p Hin. destruct (I7 p Hin) as [s0 ?]. exists s0.
    apply promise_is_snoc. by left.
  - intros p Hin. destruct (I8 p Hin) as [s0 ?]. exists s0.
    apply promise_is_snoc. by left.
  - done.
  - intros _. destruct (I1 eq_refl) as (? & ? & ? & ? & ?).
    split_and!; try done. apply Forall_app. split; [done|].
    by apply Forall_singleton.
  - done.
  - exact I3.
  - intros p [Hp|[_ [=]]]%promise_is_snoc. eauto.
  - intros p [Hp|[_ [=]]]%promise_is_snoc. by eapply I5.
  - intros p Hp. apply promise_is_snoc. left. by apply I6.
  - intros p [Hin|[= ->]%list_elem_of_singleton]%elem_of_app.
    + destruct (I7 p Hin) as [s0 ?]. exists s0. apply promise_is_snoc. by left.
    + exists Pending. apply promise_is_snoc. by right.
  - intros p [Hin|[=]%list_elem_of_singleton]%elem_of_app.
    destruct (I8 p Hin) as [s0 ?]. exists s0. apply promise_is_snoc. by left.
  - intros _ p s0 [Hp|[_ [=]]]%promise_is_snoc.
    apply elem_of_app. left. by eapply I9.
Qed.

Lemma control_invariant_close w :
  control_invariant w → control_invariant (snd (close w)).
Proof.
  intros [I1 I2 I3 I4 I5 I6 I7 I8 I9]. rewrite close_effect.
  destruct w as [h [c cs i cl lo] ls es ps ta sc sr ck].
  unfold promise_is in *; simpl in *.
  destruct cs as [s|]; simpl; split; unfold promise_is; simpl.
  - done.
  - exact I2.
  - exact I3.
  - intros p [Hp|[_ [=]]]%promise_is_snoc. eauto.
  - intros p [Hp|[_ [=]]]%promise_is_snoc. by eapply I5.
  - intros p [Hin|Heq%list_elem_of_singleton]%elem_of_app;
      apply promise_is_snoc; [left; by apply I6|by right].
  - intros p Hin. destruct (I7 p Hin) as [s0 ?]. exists s0.
    apply promise_is_snoc. by left.
  - intros p Hin. destruct (I8 p Hin) as [s0 ?]. exists s0.
    apply promise_is_snoc. by left.
  - done.
  - intros _. destruct (I1 eq_refl) as (? & ? & ? & ? & ?).
    split_and!; try done. apply Forall_app. split; [done|].
    by apply Forall_singleton.
  - done.
  - exact I3.
  - intros p [Hp|[_ [=]]]%promise_is_snoc. eauto.
  - intros p [Hp|[_ [=]]]%promise_is_snoc. by eapply I5.
  - intros p Hp. apply promise_is_snoc. left. by apply I6.
  - intros p [Hin|[=]%list_elem_of_singleton]%elem_of_app.
    destruct (I7 p Hin) as [s0 ?]. exists s0. apply promise_is_snoc. by left.
  - intros p [Hin|[= ->]%list_elem_of_singleton]%elem_of_app.
    + destruct (I8 p Hin) as [s0 ?]. exists s0. apply promise_is_snoc. by left.
    + exists Pending. apply promise_is_snoc. by right.
  - intros _ p s0 [Hp|[-> _]]%promise_is_snoc; apply elem_of_app.
    + left. by eapply I9.
    + right. by apply list_elem_of_singleton.
Qed.

Lemma lookup_settle_kind s q (ps : list promise) p k s0 :
  ps !! p = Some {| p_kind := k; p_state := s0 |} →
  ∃ s', alter (settle_promise s) q ps !! p = Some {| p_kind := k; p_state := s' |}.
Proof.
  intros Hp. rewrite (lookup_settle _ _ _ _ _ Hp).
  destruct (decide (q = p)); [|by eexists].
  destruct s0; by eexists.
Qed.

Lemma lookup_resolve_all_kind ls (ps : list promise) p k s0 :
  ps !! p = Some {| p_kind := k; p_state := s0 |} →
  ∃ s', resolve_all ls ps !! p = Some {| p_kind := k; p_state := s' |}.
Proof.
  intros Hp. rewrite (lookup_resolve_all _ _ _ _ Hp).
  destruct (decide (OnReadyResolve p ∈ ls)); [|by eexists].
  destruct s0; by eexists.
Qed.

Lemma close_then_effect p w :
  close_then p w =
    (Ok tt, with_promises (alter (settle_promise Fulfilled) p)
              (with_mirror set_closed w)).
Proof. unfold close_then, settle. run_monad. reflexivity. Qed.

Lemma control_invariant_stream_close_fulfilled w p :
  p ∈ stream_close_calls w →
  control_invariant w →
  control_invariant (snd (close_then p
    (with_stream_released true
       (with_stream_close_calls (filter (λ q, q ≠ p)) w)))).
Proof.
  intros Hp [I1 I2 I3 I4 I5 I6 I7 I8 I9]. rewrite close_then_effect.
  destruct w as [h [c cs i cl lo] ls es ps ta sc sr ck].
  unfold promise_is in *; simpl in *.
  assert (cs ≠ None) as Hcs.
  { intros ->. destruct (I1 eq_refl) as (_ & _ & -> & _).
    by apply not_elem_of_nil in Hp. }
  split; unfold promise_is; simpl.
  - done.
  - exact I2.
  - done.
  - done.
  - intros q Hq. apply lookup_settle_inv in Hq as (pr & Hpr & Hk & Hst).
    destruct pr as [k s0]; simpl in *; subst k.
    destruct Hst as [<-|(_ & _ & [=])]. by eapply I5.
  - intros q [Hne Hin]%list_elem_of_filter.
    rewrite list_lookup_alter_ne by done. by apply I6.
  - intros q Hin. destruct (I7 q Hin) as [s0 Hs0].
    by eapply lookup_settle_kind.
  - intros q Hin. destruct (I8 q Hin) as [s0 Hs0].
    by eapply lookup_settle_kind.
  - done.
Qed.

Lemma control_invariant_stream_close_rejected w p :
  p ∈ stream_close_calls w →
  control_invariant w →
  control_invariant (snd (settle p Rejected
    (with_stream_close_calls (filter (λ q, q ≠ p)) w))).
Proof.
  intros Hp [I1 I2 I3 I4 I5 I6 I7 I8 I9]. unfold settle. run_monad.
  destruct w as [h [c cs i cl lo] ls es ps ta sc sr ck].
  unfold promise_is in *; simpl in *.
  assert (cs ≠ None) as Hcs.
  { intros ->. destruct (I1 eq_refl) as (_ & _ & -> & _).
    by apply not_elem_of_nil in Hp. }
  split; unfold promise_is; simpl.
  - done.
  - exact I2.
  - exact I3.
  - intros q Hq. apply lookup_settle_inv in Hq as (pr & Hpr & Hk & Hst).
    destruct pr as [k s0]; simpl in *; subst k.
    destruct Hst as [<-|(_ & _ & [=])]. by eapply I4.
  - intros q Hq. apply lookup_settle_inv in Hq as (pr & Hpr & Hk & Hst).
    destruct pr as [k s0]; simpl in *; subst k.
    destruct Hst as [<-|(-> & _ & _)]; [by eapply I5|].
    specialize (I6 p Hp). congruence.
  - intros q [Hne Hin]%list_elem_of_filter.
    rewrite list_lookup_alter_ne by done. by apply I6.
  - intros q Hin. destruct (I7 q Hin) as [s0 Hs0].
    by eapply lookup_settle_kind.
  - intros q Hin. destruct (I8 q Hin) as [s0 Hs0].
    by eapply lookup_settle_kind.
  - done.
Qed.

Lemma control_invariant_constructor_then docs w :
  toArray w = Pending →
  control_invariant w →
  control_invariant (snd (constructor_then docs (with_toArray Fulfilled w))).
Proof.
  intros Hta [I1 I2 I3 I4 I5 I6 I7 I8 I9].
  assert (changeStream (mirror w) = None) as Hcs by (apply I2; congruence).
  destruct (I1 Hcs) as (Hi & Hcl & Hsc & Hsr & Hps).
  destruct (constructor_then_effect docs (with_toArray Fulfilled w))
    as (c' & es' & _ & [-> | ->]); [done..| |].
  - destruct w as [h [c cs i cl lo] ls es ps ta sc sr ck].
    unfold promise_is in *; simpl in *. split; unfold promise_is; simpl; done.
  - destruct w as [h [c cs i cl lo] ls es ps ta sc sr ck].
    unfold promise_is in *; simpl in *. subst.
    rewrite Forall_lookup in Hps.
    split; unfold promise_is; simpl.
    + done.
    + done.
    + done.
    + intros p Hp. apply lookup_resolve_all_inv in Hp as (pr & Hpr & Heq).
      specialize (Hps _ _ Hpr).
      destruct (decide (OnReadyResolve p ∈ ls)) as [Hin|_].
      * destruct (I7 p Hin) as [s0 Hs0]. rewrite Hs0 in Hpr.
        injection Hpr as <-. destruct s0; discriminate.
      * subst pr. discriminate.
    + intros p Hp. apply lookup_resolve_all_inv in Hp as (pr & Hpr & Heq).
      specialize (Hps _ _ Hpr). destruct pr as [k s0]; simpl in *; subst s0.
      destruct (decide (OnReadyResolve p ∈ ls)); discriminate.
    + intros p Hp%elem_of_closers. destruct (I8 p Hp) as [s0 Hs0].
      specialize (Hps _ _ Hs0). simpl in Hps. subst s0.
      rewrite (lookup_resolve_all _ _ _ _ Hs0).
      destruct (decide (OnReadyResolve p ∈ ls)) as [Hin|_]; [|done].
      destruct (I7 p Hin) as [s1 Hs1]. congruence.
    + intros p Hin. destruct (I7 p Hin) as [s0 Hs0].
      by eapply lookup_resolve_all_kind.
    + intros p Hin. destruct (I8 p Hin) as [s0 Hs0].
      by eapply lookup_resolve_all_kind.
    + done.
Qed.

Lemma control_invariant_constructor h t0 :
  control_invariant (constructor h t0).
Proof.
  split; unfold promise_is; simpl; try done.
  - intros p Hp. by apply not_elem_of_nil in Hp.
  - intros p Hp. by apply not_elem_of_nil in Hp.
  - intros p Hp. by apply not_elem_of_nil in Hp.
Qed.

Lemma control_invariant_step l w w' :
  step l w = Some w' → control_invariant w → control_invariant w'.
Proof.
  intros Hstep Hinv. destruct l as [d|docs| |c|p|p| | |h]; simpl in Hstep.
  - case_decide; [|done]. injection Hstep as <-.
    eapply control_invariant_ext; [|done]. by destruct w as [? [] ?].
  - case_decide; [|done]. injection Hstep as <-.
    by apply control_invariant_constructor_then.
  - case_decide as Hta; [|done]. injection Hstep as <-.
    destruct Hinv as [I1 I2 I3 I4 I5 I6 I7 I8 I9].
    assert (changeStream (mirror w) = None) as Hcs by (apply I2; congruence).
    destruct w as [h [c cs i cl lo] ls es ps ta sc sr ck].
    unfold promise_is in *; simpl in *. split; unfold promise_is; simpl; done.
  - destruct (changeStream (mirror w)) as [s|] eqn:Hs; [|done].
    injection Hstep as <-. by eapply control_invariant_changeHandler.
  - case_decide; [|done]. injection Hstep as <-.
    by apply control_invariant_stream_close_fulfilled.
  - case_decide; [|done]. injection Hstep as <-.
    by apply control_invariant_stream_close_rejected.
  - injection Hstep as <-. by apply control_invariant_waitUntilReady.
  - injection Hstep as <-. by apply control_invariant_close.
  - injection Hstep as <-.
    eapply control_invariant_ext; [|done]. by destruct w as [? [] ?].
Qed.

(** Induction over runs. *)
Lemma run_invariant (P : World → Prop) :
  (∀ l w w', step l w = Some w' → P w → P w') →
  ∀ ls w w', run ls w = Some w' → P w → P w'.
Proof.
  intros Hstep ls. induction ls as [|l ls IH]; intros w w' Hrun Hw; simpl in Hrun.
  - by injection Hrun as <-.
  - destruct (step l w) as [w1|] eqn:Hl; [|done]. eauto.
Qed.

Lemma run_app ls1 ls2 w w1 w2 :
  run ls1 w = Some w1 → run ls2 w1 = Some w2 → run (ls1 ++ ls2) w = Some w2.
Proof.
  revert w. induction ls1 as [|l ls1 IH]; intros w; simpl.
  - by intros [= ->].
  - destruct (step l w); [|done]. apply IH.
Qed.

Lemma reachable_run ls w w' :
  reachable w → run ls w = Some w' → reachable w'.
Proof.
  intros (h & t0 & ls0 & Hrun) Hrun'. exists h, t0, (ls0 ++ ls).
  by eapply run_app.
Qed.

Lemma reachable_step l w w' :
  reachable w → step l w = Some w' → reachable w'.
Proof.
  intros Hw Hstep. apply (reachable_run [l] w); [done|].
  simpl. by rewrite Hstep.
Qed.

(** *** The log of notifications *)

Lemma invalidated_in_app es1 es2 :
  invalidated_in (es1 ++ es2) = invalidated_in es1 ++ invalidated_in es2.
Proof. apply filter_app. Qed.

Lemma invalidated_in_changed es :
  Forall changed_notification es → invalidated_in es = [].
Proof.
  induction 1 as [|e es [He _] _ IH]; [done|].
  unfold invalidated_in in *. rewrite filter_cons_False; [done|].
  rewrite He. discriminate.
Qed.

(** What one step adds to the log: notifications seen by a valid mirror,
    none at all once the mirror is invalid, and an [invalidated] one
    exactly when the step sets the flag. *)
Lemma step_log l w w' :
  control_invariant w → step l w = Some w' →
  ∃ es,
    emitted w' = emitted w ++ es
    ∧ Forall (λ e, invalid (ev_seen e) = false) es
    ∧ (invalid (mirror w) = true → es = [] ∧ invalid (mirror w') = true)
    ∧ (invalid (mirror w) = false →
       (invalid (mirror w') = false ∧ invalidated_in es = [])
       ∨ (invalid (mirror w') = true ∧ length (invalidated_in es) = 1%nat))
    ∧ Forall payload_as_emitted es.
Proof.
  intros Hci Hstep.
  assert (∀ w1 : World, emitted w1 = emitted w →
            invalid (mirror w1) = invalid (mirror w) →
            ∃ es, emitted w1 = emitted w ++ es
              ∧ Forall (λ e, invalid (ev_seen e) = false) es
              ∧ (invalid (mirror w) = true →
                 es = [] ∧ invalid (mirror w1) = true)
              ∧ (invalid (mirror w) = false →
                 (invalid (mirror w1) = false ∧ invalidated_in es = [])
                 ∨ (invalid (mirror w1) = true
                    ∧ length (invalidated_in es) = 1%nat))
              ∧ Forall payload_as_emitted es) as Hsame.
  { intros w1 He Hi. exists []. rewrite app_nil_r, Hi.
    split_and!; [done|constructor|done| |constructor]. intros ?. by left. }
  destruct l as [d|docs| |c|p|p| | |h]; simpl in Hstep.
  - case_decide; [|done]. injection Hstep as <-. by apply Hsame.
  - case_decide as Hta; [|done]. injection Hstep as <-.
    destruct Hci as [I1 I2 _ _ _ _ _ _ _].
    assert (changeStream (mirror w) = None) as Hcs by (apply I2; congruence).
    destruct (I1 Hcs) as (Hi & _).
    destruct (constructor_then_effect docs (with_toArray Fulfilled w))
      as (c' & es' & Hes' & [-> | ->]); [done..| |].
    + exists es'. rewrite Hi.
      split_and!; [by destruct w as [? [] ?]| |done| |].
      { eapply Forall_impl; [done|]. by intros e (_ & ? & _). }
      { intros _. left. split; [by destruct w as [? [] ?]|].
        by apply invalidated_in_changed. }
      eapply Forall_impl; [done|]. intros e (? & _ & ?). by left.
    + eexists (es' ++ [_]). rewrite Hi.
      split_and!; [by destruct w as [? [] ?]| |done| |].
      { apply Forall_app. split.
        - eapply Forall_impl; [done|]. by intros e (_ & ? & _).
        - apply Forall_singleton. by destruct w as [? [] ?]. }
      { intros _. left. split; [by destruct w as [? [] ?]|].
        rewrite invalidated_in_app, invalidated_in_changed by done.
        done. }
      apply Forall_app. split.
      * eapply Forall_impl; [done|]. intros e (? & _ & ?). by left.
      * apply Forall_singleton. right. by left.
  - case_decide; [|done]. injection Hstep as <-. by apply Hsame.
  - destruct (changeStream (mirror w)) as [s|] eqn:Hs; [|done].
    injection Hstep as <-.
    destruct (data_kind c) eqn:Hd.
    + rewrite changeHandler_data by done.
      destruct (get_prop (objects (with_mirror (set_lastOpId (_id c)) w))
                  (documentKey c) "_id") as [id|e] eqn:Hk.
      * rewrite (setCachedValue_runs _ _ _ _ Hk).
        destruct w as [h [c0 cs i cl lo] ls es ps ta sc sr ck]; simpl in *.
        destruct i; simpl.
        -- exists []. rewrite app_nil_r.
           split_and!; [done|constructor|done|done|constructor].
        -- eexists [_]. split_and!; [done| |done| |].
           ++ by apply Forall_singleton.
           ++ intros _. by left.
           ++ apply Forall_singleton. left. split; [done|]. by eexists.
      * rewrite (setCachedValue_throws _ _ _ _ Hk).
        apply Hsame; by destruct w as [? [] ?].
    + destruct (decide (operationType c = "invalidate")) as [Hop|Hop].
      * rewrite changeHandler_invalidate by done.
        destruct w as [h [c0 cs i cl lo] ls es ps ta sc sr ck]; simpl in *.
        destruct i; simpl.
        -- exists []. rewrite app_nil_r.
           split_and!; [done|constructor|done|done|constructor].
        -- eexists [_]. split_and!; [done| |done| |].
           ++ by apply Forall_singleton.
           ++ intros _. by right.
           ++ apply Forall_singleton. right. right. split; [done|]. by eexists.
      * rewrite changeHandler_other by done.
        apply Hsame; by destruct w as [? [] ?].
  - case_decide; [|done]. injection Hstep as <-.
    apply Hsame; by destruct w as [? [] ?].
  - case_decide; [|done]. injection Hstep as <-.
    apply Hsame; by destruct w as [? [] ?].
  - injection Hstep as <-. rewrite waitUntilReady_effect.
    apply Hsame; by destruct w as [? [? [] ? ? ?] ?].
  - injection Hstep as <-. rewrite close_effect.
    apply Hsame; by destruct w as [? [? [] ? ? ?] ?].
  - injection Hstep as <-. by apply Hsame.
Qed.

Lemma log_invariant_step l w w' :
  control_invariant w → step l w = Some w' →
  log_invariant w → log_invariant w'.
Proof.
  intros Hci Hstep [B1 B2 B3 B4].
  destruct (step_log l w w' Hci Hstep) as (es & He & Hes & Hinv & Hval & Hpay).
  split; rewrite He.
  - by apply Forall_app.
  - intros Hi'. destruct (invalid (mirror w)) eqn:Hi.
    + destruct (Hinv eq_refl) as [_ ?]. congruence.
    + destruct (Hval eq_refl) as [[_ Hnone]|[? _]]; [|congruence].
      by rewrite invalidated_in_app, B2, Hnone.
  - rewrite invalidated_in_app, length_app.
    destruct (invalid (mirror w)) eqn:Hi.
    + destruct (Hinv eq_refl) as [-> _]. simpl. lia.
    + rewrite B2 by done. simpl.
      destruct (Hval eq_refl) as [[_ ->]|[_ ->]]; simpl; lia.
  - by apply Forall_app.
Qed.

Lemma reachable_invariants w :
  reachable w → control_invariant w ∧ log_invariant w.
Proof.
  intros (h & t0 & ls & Hrun).
  eapply (run_invariant (λ w, control_invariant w ∧ log_invariant w));
    [|done|].
  - intros l w1 w2 Hstep [Hci Hli]. split.
    + by eapply control_invariant_step.
    + by eapply log_invariant_step.
  - split; [apply control_invariant_constructor|].
    split; simpl; [constructor|done| |constructor].
    unfold invalidated_in. simpl. lia.
Qed.

(** *** What no step undoes *)

Lemma step_frame l w w' :
  control_invariant w → step l w = Some w' →
  clock w ≤ clock w'
  ∧ (toArray w ≠ Pending → toArray w' = toArray w)
  ∧ (∀ s, changeStream (mirror w) = Some s → changeStream (mirror w') = Some s)
  ∧ (∀ p k s, promise_is w p k s → ∃ s', promise_is w' p k s')
  ∧ (toArray w' = Pending → cache (mirror w') = cache (mirror w)).
Proof.
  intros Hci Hstep.
  assert (∀ w1 : World, clock w1 = clock w → toArray w1 = toArray w →
            changeStream (mirror w1) = changeStream (mirror w) →
            promises w1 = promises w →
            (toArray w = Pending → cache (mirror w1) = cache (mirror w)) →
            clock w ≤ clock w1
            ∧ (toArray w ≠ Pending → toArray w1 = toArray w)
            ∧ (∀ s, changeStream (mirror w) = Some s →
                    changeStream (mirror w1) = Some s)
            ∧ (∀ p k s, promise_is w p k s → ∃ s', promise_is w1 p k s')
            ∧ (toArray w1 = Pending → cache (mirror w1) = cache (mirror w)))
    as Hsame.
  { intros w1 Hc Ht Hs Hp Hca. unfold promise_is. rewrite Hc, Ht, Hs, Hp.
    split_and!; [lia|done|done|eauto|done]. }
  destruct Hci as [I1 I2 _ _ _ _ _ _ _].
  destruct l as [d|docs| |c|p|p| | |h]; simpl in Hstep.
  - case_decide; [|done]. injection Hstep as <-.
    split_and!; simpl; [lia|done|done| |done]. unfold promise_is. eauto.
  - case_decide as Hta; [|done]. injection Hstep as <-.
    assert (changeStream (mirror w) = None) as Hcs by (apply I2; congruence).
    destruct (I1 Hcs) as (Hi & _).
    destruct (constructor_then_effect docs (with_toArray Fulfilled w))
      as (c' & es' & _ & [-> | ->]); [done..| |].
    + destruct w as [h [c cs i cl lo] ls es ps ta sc sr ck];
        unfold promise_is; simpl in *.
      split_and!; [lia|done|by subst|eauto|done].
    + destruct w as [h [c cs i cl lo] ls es ps ta sc sr ck];
        unfold promise_is; simpl in *.
      split_and!; [lia|done|by subst| |done].
      intros p k s Hp. by eapply lookup_resolve_all_kind.
  - case_decide as Hta; [|done]. injection Hstep as <-.
    unfold promise_is. simpl. split_and!; [lia|done|done|eauto|done].
  - destruct (changeStream (mirror w)) as [s|] eqn:Hs; [|done].
    injection Hstep as <-.
    assert (toArray w ≠ Pending) as Hta.
    { intros Hta. assert (Some s = None) as [=]. apply I2. congruence. }
    assert (clock (snd (changeHandler c w)) = clock w) as Hclock.
    { destruct (data_kind c) eqn:Hd.
      - rewrite changeHandler_data by done.
        destruct (get_prop (objects (with_mirror (set_lastOpId (_id c)) w))
                    (documentKey c) "_id") as [id|e] eqn:Hk.
        + rewrite (setCachedValue_runs _ _ _ _ Hk). by destruct w as [? [] ?].
        + rewrite (setCachedValue_throws _ _ _ _ Hk). by destruct w as [? [] ?].
      - destruct (decide (operationType c = "invalidate")) as [Hop|Hop].
        + rewrite changeHandler_invalidate by done. by destruct w as [? [] ?].
        + rewrite changeHandler_other by done. by destruct w as [? [] ?]. }
    destruct (changeHandler_control c w) as [Hc|[_ Hc]];
      unfold control in Hc; simpl in Hc; injection Hc as Hc1 Hc2 Hc3 Hc4 Hc5 Hc6 Hc7 Hc8.
    + unfold promise_is. rewrite Hclock, Hc1, Hc5, Hc6, Hs.
      split_and!; [lia|done|done|eauto|done].
    + unfold promise_is. rewrite Hclock, Hc1, Hc5, Hc6, Hs.
      split_and!; [lia|done|done|eauto|done].
  - case_decide; [|done]. injection Hstep as <-.
    unfold promise_is. simpl. split_and!; [lia|done|done| |done].
    intros q k s Hq. by eapply lookup_settle_kind.
  - case_decide; [|done]. injection Hstep as <-.
    unfold promise_is. simpl. split_and!; [lia|done|done| |done].
    intros q k s Hq. by eapply lookup_settle_kind.
  - injection Hstep as <-. rewrite waitUntilReady_effect.
    unfold promise_is.
    destruct (changeStream (mirror w)) eqn:Hs; simpl;
      (split_and!; [lia|done|by rewrite ?Hs| |done]);
      intros q k s Hq; exists s; by apply lookup_app_l_Some.
  - injection Hstep as <-. rewrite close_effect.
    unfold promise_is.
    destruct (changeStream (mirror w)) eqn:Hs; simpl;
      (split_and!; [lia|done|by rewrite ?Hs| |done]);
      intros q k s Hq; exists s; by apply lookup_app_l_Some.
  - injection Hstep as <-. by apply Hsame.
Qed.

Lemma reachable_constructor h t0 : reachable (constructor h t0).
Proof. by exists h, t0, []. Qed.

Lemma run_frame ls w w' :
  reachable w → run ls w = Some w' →
  clock w ≤ clock w'
  ∧ (toArray w ≠ Pending → toArray w' = toArray w)
  ∧ (∀ s, changeStream (mirror w) = Some s → changeStream (mirror w') = Some s)
  ∧ (∀ p k s, promise_is w p k s → ∃ s', promise_is w' p k s').
Proof.
  revert w. induction ls as [|l ls IH]; intros w Hw Hrun; simpl in Hrun.
  - injection Hrun as <-. split_and!; [lia|done|done|eauto].
  - destruct (step l w) as [w1|] eqn:Hl; [|done].
    destruct (step_frame l w w1) as (Hc & Ht & Hs & Hp & _);
      [by apply reachable_invariants|done|].
    destruct (IH w1) as (Hc' & Ht' & Hs' & Hp'); [by eapply reachable_step|done|].
    split_and!.
    + lia.
    + intros Hne. rewrite Ht', Ht; [done|done|]. by rewrite Ht.
    + eauto.
    + intros p k s Hpk. destruct (Hp _ _ _ Hpk) as [s1 Hs1]. eauto.
Qed.

Lemma cache_empty_while_pending w :
  reachable w → toArray w = Pending → cache (mirror w) = [].
Proof.
  intros Hw.
  enough (control_invariant w ∧ (toArray w = Pending → cache (mirror w) = []))
    as [_ ?] by done.
  destruct Hw as (h & t0 & ls & Hrun).
  eapply (run_invariant
    (λ w, control_invariant w ∧ (toArray w = Pending → cache (mirror w) = [])));
    [|done|].
  - intros l w1 w2 Hstep [Hci Hc]. split; [by eapply control_invariant_step|].
    intros Hta. destruct (step_frame l w1 w2 Hci Hstep) as (_ & Ht & _ & _ & Hca).
    rewrite Hca by done. apply Hc.
    destruct (decide (toArray w1 = Pending)) as [|Hne]; [done|].
    rewrite <- (Ht Hne). done.
  - split; [apply control_invariant_constructor|done].
Qed.

(** The cache after one change event, and the heap, which no handler
    writes. *)
Lemma changeHandler_cache c w :
  cache (mirror (snd (changeHandler c w))) =
    if data_kind c
    then match event_key (objects w) c with
         | Ok k =>
             if nullish (fullDocument c)
             then Map_delete k (cache (mirror w))
             else Map_set k (fullDocument c) (cache (mirror w))
         | Throw _ => cache (mirror w)
         end
    else cache (mirror w).
Proof.
  unfold event_key. destruct (data_kind c) eqn:Hd.
  - rewrite changeHandler_data by done.
    replace (objects w) with (objects (with_mirror (set_lastOpId (_id c)) w))
      by (by destruct w).
    destruct (get_prop (objects (with_mirror (set_lastOpId (_id c)) w))
                (documentKey c) "_id") as [id|e] eqn:Hk.
    + rewrite (setCachedValue_runs _ _ _ _ Hk).
      destruct w as [? [] ?]; simpl. by destruct (nullish (fullDocument c)).
    + rewrite (setCachedValue_throws _ _ _ _ Hk). by destruct w as [? [] ?].
  - destruct (decide (operationType c = "invalidate")) as [Hop|Hop].
    + rewrite changeHandler_invalidate by done. by destruct w as [? [] ?].
    + rewrite changeHandler_other by done. by destruct w as [? [] ?].
Qed.

Lemma changeHandler_objects c w :
  objects (snd (changeHandler c w)) = objects w.
Proof.
  destruct (data_kind c) eqn:Hd.
  - rewrite changeHandler_data by done.
    destruct (get_prop (objects (with_mirror (set_lastOpId (_id c)) w))
                (documentKey c) "_id") as [id|e] eqn:Hk.
    + rewrite (setCachedValue_runs _ _ _ _ Hk). by destruct w as [? [] ?].
    + rewrite (setCachedValue_throws _ _ _ _ Hk). by destruct w as [? [] ?].
  - destruct (decide (operationType c = "invalidate")) as [Hop|Hop].
    + rewrite changeHandler_invalidate by done. by destruct w as [? [] ?].
    + rewrite changeHandler_other by done. by destruct w as [? [] ?].
Qed.

Lemma data_kind_cases c :
  data_kind c = true ↔
  operationType c = "delete" ∨ operationType c ∈ ["insert"; "update"; "replace"].
Proof.
  unfold data_kind. rewrite bool_decide_eq_true, !elem_of_cons, !elem_of_nil.
  tauto.
Qed.

(** *** Applying change events *)

Lemma changeHandler_lookup c w k :
  let before := cache (mirror w) in
  let after := cache (mirror (snd (changeHandler c w))) in
  if data_kind c && bool_decide (event_key (objects w) c = Ok k)
  then if nullish (fullDocument c)
       then absent after k
       else holds after k (fullDocument c)
  else Map_has k after = Map_has k before ∧ Map_get k after = Map_get k before.
Proof.
  simpl. rewrite changeHandler_cache.
  destruct (data_kind c); simpl; [|done].
  destruct (event_key (objects w) c) as [k0|e] eqn:Hk.
  - destruct (decide (k0 = k)) as [->|Hne].
    + rewrite bool_decide_eq_true_2 by done.
      destruct (nullish (fullDocument c)).
      * apply Map_has_delete_eq.
      * split; [apply Map_has_set_eq|apply Map_get_set_eq].
    + rewrite bool_decide_eq_false_2 by congruence.
      destruct (nullish (fullDocument c)).
      * by rewrite Map_has_delete_ne, Map_get_delete_ne.
      * by rewrite Map_has_set_ne, Map_get_set_ne.
  - by rewrite bool_decide_eq_false_2.
Qed.

Lemma apply_changes_lookup cs w k :
  let before := cache (mirror w) in
  let final := cache (mirror (apply_changes cs w)) in
  match last_event_for (objects w) k cs with
  | None => Map_has k final = Map_has k before ∧ Map_get k final = Map_get k before
  | Some e =>
      if nullish (fullDocument e)
      then absent final k
      else holds final k (fullDocument e)
  end.
Proof.
  simpl. revert w. induction cs as [|c cs IH]; intros w; [done|].
  change (apply_changes (c :: cs) w)
    with (apply_changes cs (snd (changeHandler c w))).
  simpl. specialize (IH (snd (changeHandler c w))).
  rewrite changeHandler_objects in IH.
  destruct (last_event_for (objects w) k cs) as [e|]; [done|].
  pose proof (changeHandler_lookup c w k) as Hc. simpl in Hc.
  destruct IH as [IHhas IHget].
  destruct (data_kind c && bool_decide (event_key (objects w) c = Ok k)).
  - unfold absent, holds in *. rewrite IHhas, IHget. done.
  - destruct Hc as [Hhas Hget]. by rewrite IHhas, IHget.
Qed.

(** C2. Applying a change event: an insert, update or replace with a
    document stores the document under the key of the event, whatever
    was there; a delete, or an event of these kinds without a document,
    leaves the key absent, and changes nothing if it was absent already;
    no other key is touched; an event of any other kind leaves the cache
    as it was.  After a sequence of events the entry of a key is the
    document of the last event applied for that key, or is absent when
    that event was a deletion.  Delete events are taken as the data
    model has them, without a document. *)
Theorem change_events_are_applied_last_write_wins
    (w : World) (cs : list change) (c : change) :
  delete_carries_no_document c →
  Forall delete_carries_no_document cs →
  let before := cache (mirror w) in
  let after := cache (mirror (snd (changeHandler c w))) in
  (∀ k, event_key (objects w) c = Ok k →
     (operationType c ∈ ["insert"; "update"; "replace"] →
      nullish (fullDocument c) = false → holds after k (fullDocument c))
     ∧ (operationType c = "delete"
        ∨ (data_kind c = true ∧ nullish (fullDocument c) = true) →
        absent after k)
     ∧ (absent before k → absent after k → after = before)
     ∧ (∀ k', k' ≠ k →
          Map_has k' after = Map_has k' before
          ∧ Map_get k' after = Map_get k' before))
  ∧ (data_kind c = false → after = before)
  ∧ (∀ k, let final := cache (mirror (apply_changes cs w)) in
       match last_event_for (objects w) k cs with
       | None =>
           Map_has k final = Map_has k before
           ∧ Map_get k final = Map_get k before
       | Some e =>
           (nullish (fullDocument e) = false → holds final k (fullDocument e))
           ∧ (operationType e = "delete" ∨ nullish (fullDocument e) = true →
              absent final k)
       end).
Proof.
  intros Hc Hcs. simpl. split_and!.
  - intros k Hk. split_and!.
    + intros Hop Hdoc. pose proof (changeHandler_lookup c w k) as Hl.
      simpl in Hl. rewrite Hk, bool_decide_eq_true_2, Hdoc in Hl by done.
      rewrite (proj2 (data_kind_cases c)) in Hl by auto. done.
    + intros Hdel. pose proof (changeHandler_lookup c w k) as Hl.
      simpl in Hl. rewrite Hk, bool_decide_eq_true_2 in Hl by done.
      destruct Hdel as [Hop|[Hd Hdoc]].
      * rewrite (proj2 (data_kind_cases c)), (Hc Hop) in Hl by auto. done.
      * by rewrite Hd, Hdoc in Hl.
    + intros Hb Ha. rewrite changeHandler_cache in *.
      destruct (data_kind c); [|done]. rewrite Hk in *.
      destruct (nullish (fullDocument c)).
      * by apply Map_delete_absent.
      * unfold absent in Ha. by rewrite Map_has_set_eq in Ha.
    + intros k' Hne. pose proof (changeHandler_lookup c w k') as Hl.
      simpl in Hl. rewrite Hk in Hl.
      rewrite (bool_decide_eq_false_2 (Ok k = Ok k')), andb_false_r in Hl
        by congruence.
      done.
  - intros Hd. by rewrite changeHandler_cache, Hd.
  - intros k. pose proof (apply_changes_lookup cs w k) as Hl. simpl in Hl.
    destruct (last_event_for (objects w) k cs) as [e|] eqn:He; [|done].
    assert (e ∈ cs) as Hin.
    { clear -He. induction cs as [|c0 cs IH]; [done|]. simpl in He.
      destruct (last_event_for (objects w) k cs) as [e'|].
      - injection He as ->. apply list_elem_of_further. by apply IH.
      - case_match; [|done]. injection He as ->. apply list_elem_of_here. }
    rewrite Forall_forall in Hcs. specialize (Hcs e Hin).
    split.
    + intros Hdoc. by rewrite Hdoc in Hl.
    + intros [Hop|Hdoc]; [rewrite (Hcs Hop) in Hl|rewrite Hdoc in Hl]; done.
Qed.

(** *** Invalidation *)

(** C6. Every notification emitted so far was delivered while
    [isValid()] was still true; [invalidated] was emitted at most once;
    an invalidate event delivered to a valid mirror emits [invalidated]
    with the flag still unset, and only then sets it; once the flag is
    set, no step clears it and no step emits anything. *)
Theorem invalidated_is_emitted_before_the_flag_is_set (w : World) :
  reachable w →
  Forall (λ e, isValid (ev_seen e) = true) (emitted w)
  ∧ (emitted_count "invalidated" w ≤ 1)%nat
  ∧ (∀ c w', operationType c = "invalidate" →
       isValid (mirror w) = true →
       step (StreamChange c) w = Some w' →
       ∃ seen,
         emitted w' =
           emitted w ++ [notification "invalidated" [AMirror; AChange c] seen]
         ∧ isValid seen = true
         ∧ isValid (mirror w') = false)
  ∧ (∀ l w', isValid (mirror w) = false →
       step l w = Some w' →
       isValid (mirror w') = false ∧ emitted w' = emitted w).
Proof.
  intros Hw. destruct (reachable_invariants w Hw) as [Hci [B1 B2 B3 _]].
  split_and!.
  - eapply Forall_impl; [exact B1|]. intros e He. unfold isValid. by rewrite He.
  - exact B3.
  - intros c w' Hop Hv Hstep. simpl in Hstep.
    destruct (changeStream (mirror w)) as [s|]; [|done].
    injection Hstep as <-. rewrite changeHandler_invalidate by done.
    unfold isValid in *. apply negb_true_iff in Hv.
    exists (set_lastOpId (_id c) (mirror w)).
    destruct w as [h [c0 cs i cl lo] ls es ps ta sc sr ck]; simpl in *.
    subst i. done.
  - intros l w' Hv Hstep. unfold isValid in *. apply negb_false_iff in Hv.
    destruct (step_log l w w' Hci Hstep) as (es & He & _ & Hinv & _ & _).
    destruct (Hinv Hv) as [-> Hi']. rewrite Hi', He, app_nil_r. done.
Qed.

(** *** Closing *)

(** C8. A [close()] called before the stream exists calls no
    [stream.close()]: it registers a listener on ['ready'] and its
    promise stays pending; as long as the stream does not exist,
    nothing is released, [isClosed()] is false and every promise of
    [close] is pending and registered; when the enumeration completes
    and the stream is built, every deferred [close] calls
    [stream.close()]; a promise of [close] is fulfilled, and [isClosed()]
    holds, only once the stream has been released; and when the driver
    fulfils an outstanding [stream.close()], the promise of that [close]
    is fulfilled and [isClosed()] holds. *)
Theorem close_before_ready_is_deferred_until_ready (w : World) :
  reachable w →
  (changeStream (mirror w) = None →
     ∃ w', step CallClose w = Some w'
       ∧ fst (close w) = Ok (length (promises w))
       ∧ promise_is w' (length (promises w)) PClose Pending
       ∧ OnReadyCloseStream (length (promises w)) ∈ listeners w'
       ∧ stream_close_calls w' = []
       ∧ mirror w' = mirror w)
  ∧ (changeStream (mirror w) = None →
       stream_close_calls w = [] ∧ stream_released w = false
       ∧ isClosed (mirror w) = false
       ∧ ∀ p s, promise_is w p PClose s →
                s = Pending ∧ OnReadyCloseStream p ∈ listeners w)
  ∧ (∀ docs w', changeStream (mirror w) = None →
       step (ToArrayFulfilled docs) w = Some w' →
       is_Some (changeStream (mirror w')) →
       ∀ p s, promise_is w p PClose s →
              p ∈ stream_close_calls w' ∧ promise_is w' p PClose Pending)
  ∧ (∀ p, promise_is w p PClose Fulfilled → stream_released w = true)
  ∧ (isClosed (mirror w) = true → stream_released w = true)
  ∧ (∀ p, p ∈ stream_close_calls w →
       ∃ w', step (StreamCloseFulfilled p) w = Some w'
         ∧ promise_is w' p PClose Fulfilled
         ∧ isClosed (mirror w') = true
         ∧ stream_released w' = true).
Proof.
  intros Hw. destruct (reachable_invariants w Hw) as [Hci _].
  pose proof Hci as [I1 I2 I3 I4 I5 I6 I7 I8 I9].
  split_and!.
  - intros Hcs. destruct (I1 Hcs) as (_ & _ & Hsc & _).
    eexists. split; [reflexivity|]. rewrite close_effect, Hcs.
    unfold promise_is. simpl. split_and!; [done| | |done|by destruct w].
    + by apply lookup_snoc_Some; right.
    + apply elem_of_app. right. by apply list_elem_of_singleton.
  - intros Hcs. destruct (I1 Hcs) as (_ & Hcl & Hsc & Hsr & Hps).
    split_and!; [done..|]. intros p s Hp. split; [|by eapply I9].
    rewrite Forall_lookup in Hps. by specialize (Hps _ _ Hp).
  - intros docs w' Hcs Hstep Hready p s Hp. simpl in Hstep.
    case_decide as Hta; [|done]. injection Hstep as <-.
    destruct (I1 Hcs) as (Hi & _ & Hsc & _ & Hps).
    assert (control_invariant
              (snd (constructor_then docs (with_toArray Fulfilled w)))) as Hci'
      by (by apply control_invariant_constructor_then).
    revert Hready Hci'.
    destruct (constructor_then_effect docs (with_toArray Fulfilled w))
      as (c' & es' & _ & [-> | ->]); [done..| |]; intros Hready Hci'.
    + destruct w as [? [] ?]; simpl in *. subst. by destruct Hready.
    + assert (p ∈ stream_close_calls
                (with_stream_close_calls (λ cs, cs ++ closers (listeners w))
                   (with_promises (resolve_all (listeners w))
                      (with_emitted
                         (λ es0, es0 ++ es' ++
                            [notification "ready" [AMirror]
                               (set_changeStream (stream_at (clock w))
                                  (set_cache c' (mirror w)))])
                         (with_mirror
                            (λ _, set_changeStream (stream_at (clock w))
                                    (set_cache c' (mirror w)))
                            (with_toArray Fulfilled w)))))) as Hin.
      { destruct w as [? [] ?]; simpl in *. apply elem_of_app. right.
        apply elem_of_closers. by eapply I9. }
      split; [|by eapply (inv_close_calls_pending _ Hci')].
      destruct w as [? [] ?]; exact Hin.
  - exact I4.
  - exact I3.
  - intros p Hp. unfold step. rewrite decide_True by done.
    eexists. split; [reflexivity|]. rewrite close_then_effect.
    unfold promise_is. simpl. split_and!; [|done..].
    rewrite (lookup_settle _ _ _ _ _ (I6 p Hp)). by rewrite decide_True.
Qed.

(** *** Seeding *)

Lemma document_key_not_nullish h doc :
  nullish doc = false → ∃ id, get_prop h doc "_id" = Ok id.
Proof.
  destruct doc; simpl; try done; eauto.
  intros _. destruct (h !! l); eauto.
Qed.

(** When no document is [null] or [undefined], the seeding loop runs to
    its end and leaves the cache [seed_cache] describes. *)
Lemma seeding_runs docs w :
  Forall (λ d, nullish d = false) docs →
  ∃ es,
    for_of docs (λ doc, setCachedValue doc doc) w =
      (Ok tt,
       with_emitted (λ es0, es0 ++ es)
         (with_mirror
            (set_cache (seed_cache (objects w) docs (cache (mirror w)))) w))
    ∧ Forall changed_notification es.
Proof.
  intros Hdocs. revert w.
  induction Hdocs as [|doc docs Hdoc _ IH]; intros w.
  - exists []. split; [|done].
    destruct w as [h [c s i cl lo] ls es ps ta sc sr ck]; simpl.
    unfold mret, M_ret, with_emitted, with_mirror, set_cache; simpl.
    by rewrite app_nil_r.
  - simpl. unfold mbind, M_bind.
    destruct (document_key_not_nullish (objects w) doc Hdoc) as [id Hk].
    rewrite (setCachedValue_runs _ _ _ _ Hk).
    match goal with |- context [for_of docs _ ?w1] =>
      destruct (IH w1) as (es & -> & Hes) end.
    unfold document_key. rewrite Hk, Hdoc.
    destruct w as [h [c s i cl lo] ls es0 ps ta sc sr ck]; simpl in *.
    destruct i; simpl in *.
    + exists es. split; [|done].
      unfold with_emitted, with_mirror, set_cache; simpl. done.
    + eexists (_ :: es). split.
      * unfold with_emitted, with_mirror, set_cache; simpl.
        by rewrite <- app_assoc.
      * constructor; [|done]. split_and!; [done..|]. by eexists.
Qed.

Lemma constructor_then_ready docs w :
  changeStream (mirror w) = None → invalid (mirror w) = false →
  Forall (λ d, nullish d = false) docs →
  ∃ es,
    Forall changed_notification es ∧
    let m1 := set_changeStream (stream_at (clock w))
                (set_cache (seed_cache (objects w) docs (cache (mirror w)))
                   (mirror w)) in
    constructor_then docs w =
      (Ok tt,
       with_stream_close_calls (λ cs, cs ++ closers (listeners w))
         (with_promises (resolve_all (listeners w))
            (with_emitted
               (λ es0, es0 ++ es ++ [notification "ready" [AMirror] m1])
               (with_mirror (λ _, m1) w)))).
Proof.
  intros Hs Hi Hdocs. unfold constructor_then.
  destruct (seeding_runs docs w Hdocs) as (es & Hrun & Hes).
  exists es. split; [done|].
  cbv beta delta [mbind M_bind]. rewrite Hrun.
  unfold Date_now, buildChangeStream, doEmit, emit, isValid.
  run_monad. rewrite Hi. run_monad.
  erewrite ready_listeners_effect by (simpl; reflexivity).
  destruct w as [h [c s i cl lo] ls es0 ps ta sc sr ck].
  cbv [with_stream_close_calls with_promises with_emitted with_mirror
       objects mirror listeners emitted promises toArray
       stream_close_calls stream_released clock].
  by rewrite <- app_assoc.
Qed.

Lemma seed_cache_lookup h docs (m : jsmap) k :
  Forall (λ d, nullish d = false) docs →
  match last_doc_for h k docs with
  | Some d => holds (seed_cache h docs m) k d
  | None =>
      Map_has k (seed_cache h docs m) = Map_has k m
      ∧ Map_get k (seed_cache h docs m) = Map_get k m
  end.
Proof.
  intros Hdocs. revert m.
  induction Hdocs as [|doc docs Hdoc _ IH]; intros m; [done|].
  change (seed_cache h (doc :: docs) m)
    with (seed_cache h docs (match document_key h doc with
                             | Ok k0 => Map_set k0 doc m
                             | Throw _ => m
                             end)).
  simpl.
  match goal with |- context [seed_cache h docs ?m1] =>
    specialize (IH m1) end.
  destruct (last_doc_for h k docs) as [d|]; [done|].
  unfold holds. destruct IH as [-> ->].
  destruct (document_key h doc) as [k0|e] eqn:Hk.
  - destruct (decide (k0 = k)) as [->|Hne].
    + rewrite bool_decide_eq_true_2 by done.
      split; [apply Map_has_set_eq|apply Map_get_set_eq].
    + rewrite bool_decide_eq_false_2 by congruence.
      by rewrite Map_has_set_ne, Map_get_set_ne.
  - by rewrite bool_decide_eq_false_2.
Qed.


Lemma Map_has_app k (m1 m2 : jsmap) :
  Map_has k (m1 ++ m2) = Map_has k m1 || Map_has k m2.
Proof.
  induction m1 as [|[k' v'] m1 IH]; simpl; [done|].
  by destruct (decide (k' = k)).
Qed.

(** With distinct keys, the loop appends the documents in order. *)
Lemma seed_cache_distinct h docs (m : jsmap) :
  Forall (λ d, nullish d = false) docs →
  NoDup (document_key h <$> docs) →
  (∀ d k, d ∈ docs → document_key h d = Ok k → Map_has k m = false) →
  Map_values (seed_cache h docs m) = Map_values m ++ docs.
Proof.
  intros Hdocs. revert m.
  induction Hdocs as [|doc docs Hdoc _ IH]; intros m Hnd Hfresh.
  - simpl. by rewrite app_nil_r.
  - change (seed_cache h (doc :: docs) m)
      with (seed_cache h docs (match document_key h doc with
                               | Ok k0 => Map_set k0 doc m
                               | Throw _ => m
                               end)).
    rewrite fmap_cons in Hnd. apply NoDup_cons in Hnd as [Hnotin Hnd].
    destruct (document_key_not_nullish h doc Hdoc) as [id Hid].
    assert (document_key h doc = Ok (JSON_stringify h id)) as Hk
      by (unfold document_key; by rewrite Hid).
    rewrite Hk.
    rewrite Map_set_fresh
      by (eapply Hfresh; [apply list_elem_of_here|done]).
    rewrite IH; [|done|].
    + unfold Map_values. rewrite map_app. simpl. by rewrite <- app_assoc.
    + intros d k Hd Hdk. rewrite Map_has_app.
      rewrite (Hfresh d k) by (by apply list_elem_of_further || done).
      simpl. rewrite decide_False; [done|]. intros Heq.
      apply Hnotin. rewrite Hk, Heq, <- Hdk. by apply list_elem_of_fmap_2.
Qed.

Lemma for_of_app {A : Type} (xs ys : list A) (body : A → M unit) w :
  for_of (xs ++ ys) body w =
    match for_of xs body w with
    | (Ok _, w1) => for_of ys body w1
    | (Throw e, w1) => (Throw e, w1)
    end.
Proof.
  revert w. induction xs as [|x xs IH]; intros w; simpl; [done|].
  cbv beta delta [mbind M_bind].
  destruct (body x w) as [[[]|e] w1]; [apply IH|done].
Qed.

(** The documents before the first one that is [null] or [undefined]. *)
Lemma first_nullish (docs : list value) :
  Forall (λ d, nullish d = false) docs
  ∨ ∃ loaded d rest,
      docs = loaded ++ d :: rest
      ∧ Forall (λ d, nullish d = false) loaded ∧ nullish d = true.
Proof.
  induction docs as [|d docs IH]; [by left|].
  destruct (nullish d) eqn:Hd.
  - right. by exists [], d, docs.
  - destruct IH as [Hall|(loaded & d' & rest & -> & Hloaded & Hd')].
    + left. by constructor.
    + right. exists (d :: loaded), d', rest. split_and!; [done| |done].
      by constructor.
Qed.

(** The loop stops at such a document with a [TypeError]; the documents
    before it are in the cache. *)
Lemma seeding_stops loaded d rest w :
  Forall (λ d, nullish d = false) loaded → nullish d = true →
  ∃ es,
    for_of (loaded ++ d :: rest) (λ doc, setCachedValue doc doc) w =
      (Throw TypeError,
       with_emitted (λ es0, es0 ++ es)
         (with_mirror
            (set_cache (seed_cache (objects w) loaded (cache (mirror w)))) w)).
Proof.
  intros Hloaded Hd. destruct (seeding_runs loaded w Hloaded) as (es & Hrun & _).
  exists es. rewrite for_of_app, Hrun. simpl. cbv beta delta [mbind M_bind].
  rewrite (setCachedValue_throws _ _ _ TypeError); [done|].
  by destruct d.
Qed.

Lemma constructor_then_stops loaded d rest w :
  Forall (λ d, nullish d = false) loaded → nullish d = true →
  ∃ es,
    constructor_then (loaded ++ d :: rest) w =
      (Throw TypeError,
       with_emitted (λ es0, es0 ++ es)
         (with_mirror
            (set_cache (seed_cache (objects w) loaded (cache (mirror w)))) w)).
Proof.
  intros Hloaded Hd.
  destruct (seeding_stops loaded d rest w Hloaded Hd) as (es & Hrun).
  exists es. unfold constructor_then. cbv beta delta [mbind M_bind].
  by rewrite Hrun.
Qed.

Lemma seed_cache_NoDup h docs (m : jsmap) :
  NoDup m.*1 → NoDup (seed_cache h docs m).*1.
Proof.
  revert m. induction docs as [|d docs IH]; intros m Hnd; [done|].
  change (seed_cache h (d :: docs) m)
    with (seed_cache h docs (match document_key h d with
                             | Ok k0 => Map_set k0 d m
                             | Throw _ => m
                             end)).
  apply IH. destruct (document_key h d); [by apply Map_set_NoDup|done].
Qed.

(** The keys of the cache are distinct in every state. *)
Lemma step_cache_keys l w w' :
  control_invariant w → step l w = Some w' →
  NoDup (cache (mirror w)).*1 → NoDup (cache (mirror w')).*1.
Proof.
  intros Hci Hstep Hnd. destruct l as [d|docs| |c|p|p| | |h]; simpl in Hstep.
  - case_decide; [|done]. by injection Hstep as <-.
  - case_decide as Hta; [|done]. injection Hstep as <-.
    destruct Hci as [I1 I2 _ _ _ _ _ _ _].
    assert (changeStream (mirror w) = None) as Hcs by (apply I2; congruence).
    destruct (I1 Hcs) as (Hi & _).
    destruct (first_nullish docs) as [Hall|(loaded & d & rest & -> & Hl & Hd)].
    + destruct (constructor_then_ready docs (with_toArray Fulfilled w))
        as (es & _ & ->); [done..|].
      destruct w as [? [] ?]; simpl in *. by apply seed_cache_NoDup.
    + destruct (constructor_then_stops loaded d rest
                  (with_toArray Fulfilled w) Hl Hd) as (es & ->).
      destruct w as [? [] ?]; simpl in *. by apply seed_cache_NoDup.
  - case_decide; [|done]. by injection Hstep as <-.
  - destruct (changeStream (mirror w)) as [s|] eqn:Hs; [|done].
    injection Hstep as <-. rewrite changeHandler_cache.
    destruct (data_kind c); [|done].
    destruct (event_key (objects w) c); [|done].
    destruct (nullish (fullDocument c));
      [by apply Map_delete_NoDup|by apply Map_set_NoDup].
  - case_decide; [|done]. by injection Hstep as <-.
  - case_decide; [|done]. by injection Hstep as <-.
  - injection Hstep as <-. rewrite waitUntilReady_effect.
    by destruct (changeStream (mirror w)).
  - injection Hstep as <-. rewrite close_effect.
    by destruct (changeStream (mirror w)).
  - by injection Hstep as <-.
Qed.

Lemma reachable_cache_keys w : reachable w → NoDup (cache (mirror w)).*1.
Proof.
  intros (h & t0 & ls & Hrun).
  enough (control_invariant w ∧ NoDup (cache (mirror w)).*1) as [_ ?] by done.
  eapply (run_invariant (λ w, control_invariant w ∧ NoDup (cache (mirror w)).*1));
    [|done|].
  - intros l w1 w2 Hstep [Hci Hnd]. split.
    + by eapply control_invariant_step.
    + by eapply step_cache_keys.
  - split; [apply control_invariant_constructor|apply NoDup_nil_2].
Qed.

(** *** Queries *)

(** [find] checks validity first, closed-ness second, and then returns
    cached values: every element of the result is a value of the cache. *)
Lemma find_checks_validity_then_closedness query w :
  (invalid (mirror w) = true → find query w = Throw CollectionNoLongerValid)
  ∧ (invalid (mirror w) = false → closed (mirror w) = true →
     find query w = Throw MirrorClosed)
  ∧ (∀ vs v, find query w = Ok vs → v ∈ vs →
             v ∈ Map_values (cache (mirror w))).
Proof.
  unfold find, assertState. split_and!.
  - by intros ->.
  - by intros -> ->.
  - destruct (invalid (mirror w)); [done|].
    destruct (closed (mirror w)); [done|].
    intros vs v [= <-] Hin. by apply list_elem_of_filter in Hin as [_ ?].
Qed.

(** [get] never looks at the flags. *)
Lemma get_ignores_the_flags key w :
  get key (with_mirror set_invalid w) = get key w
  ∧ get key (with_mirror set_closed w) = get key w
  ∧ get key w ≠ Throw CollectionNoLongerValid
  ∧ get key w ≠ Throw MirrorClosed.
Proof.
  unfold get. split_and!; [by destruct w as [? [] ?]..| |];
    by destruct (Map_has _ _).
Qed.

(** The arguments of every notification emitted so far. *)
Lemma emitted_payloads w : reachable w → Forall payload_as_emitted (emitted w).
Proof. intros Hw. by destruct (reachable_invariants w Hw) as [_ [_ _ _ ?]]. Qed.

(** A delete event is handled like the other three kinds: were it to
    carry a document, the document would be stored. *)
Lemma delete_event_with_a_document_is_stored c w k :
  operationType c = "delete" → nullish (fullDocument c) = false →
  event_key (objects w) c = Ok k →
  holds (cache (mirror (snd (changeHandler c w)))) k (fullDocument c).
Proof.
  intros Hop Hdoc Hk. pose proof (changeHandler_lookup c w k) as Hl.
  simpl in Hl. rewrite Hk, bool_decide_eq_true_2, Hdoc in Hl by done.
  rewrite (proj2 (data_kind_cases c)) in Hl by auto. done.
Qed.

(** *** Queries while initializing *)

(** C10. While the stream does not exist yet, [find] does not throw: it
    returns, in the order of the cache, the cached documents that match,
    and a document is returned exactly when it matches and the cache
    holds it under some key; the mirror is not ready; before the
    enumeration has completed the result is the empty array.  When the
    callback of the enumeration stops at a document that is [null] or
    [undefined], the stream is not built and the mirror stays
    initializing with the documents before that one loaded: each key
    leads to the last of them with that key, and with distinct keys
    [find] returns those of them that match, in their order. *)
Theorem find_while_initializing (w : World) (query : value) :
  reachable w →
  changeStream (mirror w) = None →
  let vs := filter (λ v, sift (objects w) query v = true)
                   (Map_values (cache (mirror w))) in
  find query w = Ok vs
  ∧ (∀ v, v ∈ vs ↔
          sift (objects w) query v = true ∧ ∃ k, holds (cache (mirror w)) k v)
  ∧ isReady (mirror w) = false
  ∧ (toArray w = Pending → find query w = Ok [])
  ∧ (∀ docs w',
       toArray w = Pending →
       step (ToArrayFulfilled docs) w = Some w' →
       changeStream (mirror w') = None →
       ∃ loaded d rest,
         docs = loaded ++ d :: rest
         ∧ Forall (λ d, nullish d = false) loaded
         ∧ nullish d = true
         ∧ (∀ k, match last_doc_for (objects w) k loaded with
                 | Some x => holds (cache (mirror w')) k x
                 | None => absent (cache (mirror w')) k
                 end)
         ∧ (NoDup (document_key (objects w) <$> loaded) →
            find query w' =
              Ok (filter (λ v, sift (objects w) query v = true) loaded))).
Proof.
  intros Hw Hcs. destruct (reachable_invariants w Hw) as [[I1 I2 _ _ _ _ _ _ _] _].
  destruct (I1 Hcs) as (Hi & Hcl & _).
  assert (find query w =
            Ok (filter (λ v, sift (objects w) query v = true)
                       (Map_values (cache (mirror w))))) as Hfind.
  { unfold find, assertState. by rewrite Hi, Hcl. }
  cbv zeta. split_and!.
  - done.
  - intros v. rewrite list_elem_of_filter.
    by rewrite (elem_of_Map_values _ v (reachable_cache_keys w Hw)).
  - unfold isReady. by rewrite Hcs.
  - intros Hta. rewrite Hfind, (cache_empty_while_pending w Hw Hta). done.
  - intros docs w' Hta Hstep Hcs'.
    pose proof (cache_empty_while_pending w Hw Hta) as Hempty.
    unfold step in Hstep. rewrite decide_True in Hstep by done.
    injection Hstep as <-.
    destruct (first_nullish docs) as [Hall|(loaded & d & rest & -> & Hl & Hd)].
    + exfalso. revert Hcs'.
      destruct (constructor_then_ready docs (with_toArray Fulfilled w))
        as (es & _ & ->); [done..|].
      by destruct w as [? [] ?].
    + exists loaded, d, rest. split_and!; [done..| |].
      * revert Hcs'.
        destruct (constructor_then_stops loaded d rest
                    (with_toArray Fulfilled w) Hl Hd) as (es & ->).
        intros _ k.
        pose proof (seed_cache_lookup (objects w) loaded [] k Hl) as Hlook.
        destruct w as [h [c s i cl lo] ls es0 ps ta sc sr ck]; simpl in *.
        subst c.
        destruct (last_doc_for h k loaded); [done|]. by destruct Hlook as [? _].
      * intros Hnd. revert Hcs'.
        destruct (constructor_then_stops loaded d rest
                    (with_toArray Fulfilled w) Hl Hd) as (es & ->).
        intros _.
        destruct w as [h [c s i cl lo] ls es0 ps ta sc sr ck]; simpl in *.
        subst. unfold find, assertState. simpl.
        rewrite (seed_cache_distinct h loaded []); done.
Qed.

(** *** A failed enumeration *)

(** After a failed enumeration the stream is never built, and nothing
    settles a promise. *)
Lemma failed_enumeration_frame w ls w' :
  reachable w → toArray w = Rejected → run ls w = Some w' →
  toArray w' = Rejected
  ∧ changeStream (mirror w') = None
  ∧ Forall (λ pr, p_state pr = Pending) (promises w').
Proof.
  intros Hw Hta Hrun.
  destruct (run_frame ls w w' Hw Hrun) as (_ & Ht & _ & _).
  assert (toArray w' = Rejected) as Hta' by (rewrite Ht; congruence).
  assert (reachable w') as Hw' by (by eapply reachable_run).
  destruct (reachable_invariants w' Hw') as [[I1 I2 _ _ _ _ _ _ _] _].
  assert (changeStream (mirror w') = None) as Hcs by (apply I2; congruence).
  destruct (I1 Hcs) as (_ & _ & _ & _ & Hps). done.
Qed.

(** C1, as amended. Once the enumeration has failed it stays failed, the
    mirror is never ready, and no promise of [waitUntilReady] is ever
    settled: those pending at the failure stay pending, and so do those
    created later. *)
Theorem failed_enumeration_leaves_waiters_pending
    (w : World) (ls : list label) (w' : World) :
  reachable w → toArray w = Rejected → run ls w = Some w' →
  toArray w' = Rejected
  ∧ isReady (mirror w') = false
  ∧ (∀ p s, promise_is w p PWaitUntilReady s →
            promise_is w' p PWaitUntilReady Pending)
  ∧ (∀ p s, promise_is w' p PWaitUntilReady s → s = Pending).
Proof.
  intros Hw Hta Hrun.
  destruct (failed_enumeration_frame w ls w' Hw Hta Hrun) as (Hta' & Hcs & Hps).
  destruct (run_frame ls w w' Hw Hrun) as (_ & _ & _ & Hp).
  rewrite Forall_lookup in Hps.
  assert (∀ p s, promise_is w' p PWaitUntilReady s → s = Pending) as Hpending.
  { intros p s Hs. by specialize (Hps _ _ Hs). }
  split_and!; [done| |  |done].
  - unfold isReady. by rewrite Hcs.
  - intros p s Hs. destruct (Hp _ _ _ Hs) as [s' Hs'].
    by rewrite (Hpending _ _ Hs') in Hs'.
Qed.

(** *** The start of the change stream *)

Lemma to_int32_range x : - 2 ^ 31 ≤ to_int32 x < 2 ^ 31.
Proof.
  unfold to_int32. pose proof (Z.mod_pos_bound (x + 2 ^ 31) (2 ^ 32)). lia.
Qed.

Lemma to_int32_fits x : - 2 ^ 31 ≤ x < 2 ^ 31 → to_int32 x = x.
Proof. intros Hx. unfold to_int32. rewrite Z.mod_small; lia. Qed.

Lemma to_int32_le x : - 2 ^ 31 ≤ x → to_int32 x ≤ x.
Proof.
  intros Hx. unfold to_int32.
  pose proof (Z.mod_le (x + 2 ^ 31) (2 ^ 32)). lia.
Qed.

(** The seconds wrap: with the clock at 2 ^ 31 + 30 seconds the start is
    the least 32-bit integer. *)
Lemma start_wraps_at_32_bits :
  high (opt_startAtOperationTime (options (stream_at ((2 ^ 31 + 30) * 1000)))) =
  - 2 ^ 31.
Proof. vm_compute. reflexivity. Qed.

(** C7, as amended. The change stream is opened at the time read from
    the clock when the enumeration completes, not at construction: that
    second, less thirty, kept as a signed 32-bit integer.  The clock
    shows no less than at construction.  With a clock that is not
    negative, the start does not come after the construction when the
    enumeration takes at most thirty seconds; as long as the seconds fit
    in 32 bits the start is that second less thirty, and it comes after
    the construction when the enumeration takes thirty-one seconds or
    more.  The stream is opened once and stays as opened. *)
Theorem change_stream_starts_thirty_seconds_before_completion
    (h : heap) (t0 : Z) (ls : list label) (w : World) (docs : list value)
    (w' : World) (s : ChangeStream) (ls' : list label) (w'' : World) :
  run ls (constructor h t0) = Some w →
  step (ToArrayFulfilled docs) w = Some w' →
  changeStream (mirror w') = Some s →
  run ls' w' = Some w'' →
  let start := high (opt_startAtOperationTime (options s)) in
  opt_startAtOperationTime (options s) =
    new_Timestamp 0 (clock w / 1000 - 30)
  ∧ t0 ≤ clock w
  ∧ (0 ≤ t0 → clock w - t0 ≤ THIRTY_SECONDS_AS_MS → start * 1000 ≤ t0)
  ∧ (0 ≤ t0 → clock w / 1000 - 30 < 2 ^ 31 →
     start = clock w / 1000 - 30
     ∧ (THIRTY_SECONDS_AS_MS + 1000 ≤ clock w - t0 → t0 < start * 1000))
  ∧ changeStream (mirror w'') = Some s.
Proof.
  intros Hrun Hstep Hs Hrun'.
  assert (reachable w) as Hw by (by exists h, t0, ls).
  assert (reachable w') as Hw' by (by eapply reachable_step).
  destruct (run_frame ls _ w (reachable_constructor h t0) Hrun) as (Hclock & _).
  simpl in Hclock.
  destruct (run_frame ls' w' w'' Hw' Hrun') as (_ & _ & Hkeep & _).
  destruct (reachable_invariants w Hw) as [[I1 I2 _ _ _ _ _ _ _] _].
  simpl in Hstep. case_decide as Hta; [|done]. injection Hstep as <-.
  assert (changeStream (mirror w) = None) as Hcs by (apply I2; congruence).
  destruct (I1 Hcs) as (Hi & _).
  assert (s = stream_at (clock w)) as ->.
  { revert Hs.
    destruct (constructor_then_effect docs (with_toArray Fulfilled w))
      as (c' & es' & _ & [-> | ->]); [done..| |].
    - destruct w as [? [] ?]; simpl in *. congruence.
    - destruct w as [? [] ?]; simpl. congruence. }
  cbv zeta.
  change (high (opt_startAtOperationTime (options (stream_at (clock w)))))
    with (to_int32 (clock w / 1000 - 30)).
  unfold THIRTY_SECONDS_AS_MS.
  pose proof (Z.mul_div_le (clock w) 1000) as Hfloor.
  pose proof (Z.mul_succ_div_gt (clock w) 1000) as Hceil.
  assert (0 ≤ t0 → 0 ≤ clock w / 1000) as Hpos
    by (intros ?; apply Z.div_pos; lia).
  split_and!; [done|done| | |by apply Hkeep].
  - intros Ht0 Hshort.
    pose proof (to_int32_le (clock w / 1000 - 30)). lia.
  - intros Ht0 Hfit.
    rewrite to_int32_fits by (specialize (Hpos Ht0); lia).
    split; [done|]. intros Hlong. lia.
Qed.

End Properties.

(** ** The properties on the sample data *)

Lemma reachable_world_after ls :
  is_Some (run ls (constructor sample_heap 0)) → reachable (world_after ls).
Proof.
  intros [w Hw]. exists sample_heap, 0, ls. unfold world_after.
  by rewrite Hw.
Qed.

Lemma change_events_are_applied_last_write_wins_witness :
  delete_carries_no_document sample_delete
  ∧ Forall delete_carries_no_document
      [sample_insert; sample_update_gone; sample_insert; sample_drop]
  ∧ absent (cache (mirror (snd (changeHandler sample_delete ready_world))))
      cache_key_abc
  ∧ holds (cache (mirror (apply_changes
             [sample_insert; sample_update_gone; sample_insert; sample_drop]
             ready_world)))
      cache_key_abc doc_abc.
Proof.
  assert (delete_carries_no_document sample_delete) as H1 by (intros _; reflexivity).
  assert (Forall delete_carries_no_document
            [sample_insert; sample_update_gone; sample_insert; sample_drop]) as H2
    by (repeat constructor; intros [=]).
  split; [exact H1|]. split; [exact H2|].
  destruct (change_events_are_applied_last_write_wins ready_world _ _ H1 H2)
    as (Hone & _ & Hseq).
  split.
  - apply (Hone cache_key_abc); [reflexivity|]. by left.
  - specialize (Hseq cache_key_abc). vm_compute last_event_for in Hseq.
    apply Hseq. reflexivity.
Defined.

Lemma invalidated_is_emitted_before_the_flag_is_set_witness :
  reachable ready_world
  ∧ ∃ seen,
      emitted invalid_world =
        emitted ready_world ++
          [notification "invalidated" [AMirror; AChange sample_invalidate] seen]
      ∧ isValid seen = true
      ∧ isValid (mirror invalid_world) = false.
Proof.
  assert (reachable ready_world) as Hw
    by (apply reachable_world_after; vm_compute; eauto).
  split; [exact Hw|].
  destruct (invalidated_is_emitted_before_the_flag_is_set ready_world Hw)
    as (_ & _ & Hinvalidate & _).
  apply (Hinvalidate sample_invalidate invalid_world);
    [reflexivity|reflexivity|vm_compute; reflexivity].
Defined.

Lemma close_before_ready_is_deferred_until_ready_witness :
  reachable fresh_world
  ∧ changeStream (mirror fresh_world) = None
  ∧ ∃ w', step CallClose fresh_world = Some w'
      ∧ fst (close fresh_world) = Ok (length (promises fresh_world))
      ∧ promise_is w' (length (promises fresh_world)) PClose Pending
      ∧ OnReadyCloseStream (length (promises fresh_world)) ∈ listeners w'
      ∧ stream_close_calls w' = []
      ∧ mirror w' = mirror fresh_world.
Proof.
  assert (reachable fresh_world) as Hw by apply reachable_constructor.
  split; [exact Hw|]. split; [reflexivity|].
  destruct (close_before_ready_is_deferred_until_ready fresh_world Hw)
    as (Hdefer & _).
  apply Hdefer. reflexivity.
Defined.

Lemma find_while_initializing_witness :
  reachable partly_seeded_world
  ∧ changeStream (mirror partly_seeded_world) = None
  ∧ holds (cache (mirror partly_seeded_world)) cache_key_abc doc_abc
  ∧ find empty_query partly_seeded_world = Ok [doc_abc].
Proof.
  assert (reachable partly_seeded_world) as Hw
    by (apply reachable_world_after; vm_compute; eauto).
  split; [exact Hw|]. split; [reflexivity|].
  split; [split; vm_compute; reflexivity|].
  destruct (find_while_initializing partly_seeded_world empty_query Hw eq_refl)
    as (Hfind & _).
  rewrite Hfind. vm_compute. reflexivity.
Defined.

Lemma failed_enumeration_leaves_waiters_pending_witness :
  reachable failed_world
  ∧ toArray failed_world = Rejected
  ∧ run [Tick 60000; CallWaitUntilReady] failed_world =
      Some (world_after [CallWaitUntilReady; ToArrayRejected; Tick 60000;
                         CallWaitUntilReady])
  ∧ promise_is
      (world_after [CallWaitUntilReady; ToArrayRejected; Tick 60000;
                    CallWaitUntilReady])
      0 PWaitUntilReady Pending.
Proof.
  assert (reachable failed_world) as Hw
    by (apply reachable_world_after; vm_compute; eauto).
  assert (run [Tick 60000; CallWaitUntilReady] failed_world =
            Some (world_after [CallWaitUntilReady; ToArrayRejected; Tick 60000;
                               CallWaitUntilReady])) as Hrun
    by (vm_compute; reflexivity).
  split; [exact Hw|]. split; [reflexivity|]. split; [exact Hrun|].
  destruct (failed_enumeration_leaves_waiters_pending failed_world _ _
              Hw eq_refl Hrun) as (_ & _ & Hkeep & _).
  apply (Hkeep 0%nat Pending). reflexivity.
Defined.

(** C1, as stated, fails: one caller waits, the enumeration fails, and
    whatever happens next the promise of the caller is not rejected. *)
Lemma waitUntilReady_is_not_rejected_after_a_failed_enumeration :
  reachable failed_world
  ∧ toArray failed_world = Rejected
  ∧ promise_is failed_world 0 PWaitUntilReady Pending
  ∧ ∀ ls w', run ls failed_world = Some w' →
             ¬ promise_is w' 0 PWaitUntilReady Rejected.
Proof.
  assert (reachable failed_world) as Hw
    by (apply reachable_world_after; vm_compute; eauto).
  split; [exact Hw|]. split; [reflexivity|]. split; [reflexivity|].
  intros ls w' Hrun Hrej.
  destruct (failed_enumeration_frame failed_world ls w' Hw eq_refl Hrun)
    as (_ & _ & Hps).
  rewrite Forall_lookup in Hps. specialize (Hps _ _ Hrej). discriminate.
Qed.

Lemma change_stream_starts_thirty_seconds_before_completion_witness :
  run [Tick 10000] (constructor sample_heap 0) = Some (world_after [Tick 10000])
  ∧ step (ToArrayFulfilled [doc_abc]) (world_after [Tick 10000]) =
      Some (world_after [Tick 10000; ToArrayFulfilled [doc_abc]])
  ∧ changeStream
      (mirror (world_after [Tick 10000; ToArrayFulfilled [doc_abc]])) =
      Some (stream_at 10000)
  ∧ run [StreamChange sample_insert]
      (world_after [Tick 10000; ToArrayFulfilled [doc_abc]]) =
      Some (world_after [Tick 10000; ToArrayFulfilled [doc_abc];
                         StreamChange sample_insert])
  ∧ high (opt_startAtOperationTime (options (stream_at 10000))) = -20
  ∧ high (opt_startAtOperationTime (options (stream_at 10000))) * 1000 ≤ 0.
Proof.
  assert (run [Tick 10000] (constructor sample_heap 0) =
            Some (world_after [Tick 10000])) as H1 by (vm_compute; reflexivity).
  assert (step (ToArrayFulfilled [doc_abc]) (world_after [Tick 10000]) =
            Some (world_after [Tick 10000; ToArrayFulfilled [doc_abc]])) as H2
    by (vm_compute; reflexivity).
  assert (changeStream
            (mirror (world_after [Tick 10000; ToArrayFulfilled [doc_abc]])) =
            Some (stream_at 10000)) as H3 by (vm_compute; reflexivity).
  assert (run [StreamChange sample_insert]
            (world_after [Tick 10000; ToArrayFulfilled [doc_abc]]) =
            Some (world_after [Tick 10000; ToArrayFulfilled [doc_abc];
                               StreamChange sample_insert])) as H4
    by (vm_compute; reflexivity).
  split; [exact H1|]. split; [exact H2|]. split; [exact H3|]. split; [exact H4|].
  destruct (change_stream_starts_thirty_seconds_before_completion
              _ _ _ _ _ _ _ _ _ H1 H2 H3 H4) as (_ & _ & Hshort & Hfit & _).
  split.
  - apply Hfit; vm_compute; [discriminate|reflexivity].
  - apply Hshort; vm_compute; discriminate.
Defined.

(** C7, as stated, fails: the enumeration takes a hundred seconds, and
    the stream starts seventy seconds after the construction, at time 0,
    of the mirror. *)
Lemma change_stream_can_start_after_the_construction :
  run [Tick 100000; ToArrayFulfilled [doc_abc]] (constructor sample_heap 0) =
    Some slow_world
  ∧ changeStream (mirror slow_world) = Some (stream_at 100000)
  ∧ high (opt_startAtOperationTime (options (stream_at 100000))) = 70
  ∧ ¬ (high (opt_startAtOperationTime (options (stream_at 100000))) * 1000 ≤ 0).
Proof.
  split; [vm_compute; reflexivity|]. split; [vm_compute; reflexivity|].
  split; [vm_compute; reflexivity|]. vm_compute. intros H. by apply H.
Qed.

(** C3. [find] and [get] hand out the cached objects themselves, not
    copies: the value [find] returns is the reference the cache holds,
    and after the caller has written [foo = 'baz'] through it, [get]
    returns a document whose [foo] is ['baz']. *)
Theorem find_and_get_return_the_cached_objects :
  Map_values (cache (mirror ready_world)) = [doc_abc]
  ∧ find empty_query ready_world = Ok [doc_abc]
  ∧ get (VStr "abc") ready_world = Ok doc_abc
  ∧ get_prop (objects ready_world) doc_abc "foo" = Ok (VStr "bar")
  ∧ ∃ w', step (HeapChange heap_after_caller_write) ready_world = Some w'
      ∧ mirror w' = mirror ready_world
      ∧ get (VStr "abc") w' = Ok doc_abc
      ∧ find empty_query w' = Ok [doc_abc]
      ∧ get_prop (objects w') doc_abc "foo" = Ok (VStr "baz").
Proof.
  split; [vm_compute; reflexivity|]. split; [vm_compute; reflexivity|].
  split; [vm_compute; reflexivity|]. split; [vm_compute; reflexivity|].
  eexists. split; [reflexivity|].
  split; [reflexivity|]. split; [vm_compute; reflexivity|].
  split; vm_compute; reflexivity.
Qed.

(** C4. [get] does not look at the flags: on the invalidated mirror and
    on the closed mirror it returns the cached document, where [find]
    throws [CollectionNoLongerValid] and [MirrorClosed]. *)
Theorem get_answers_on_an_invalid_or_closed_mirror :
  invalid (mirror invalid_world) = true
  ∧ find empty_query invalid_world = Throw CollectionNoLongerValid
  ∧ get (VStr "abc") invalid_world = Ok doc_abc
  ∧ closed (mirror closed_world) = true
  ∧ find empty_query closed_world = Throw MirrorClosed
  ∧ get (VStr "abc") closed_world = Ok doc_abc.
Proof. repeat split; vm_compute; reflexivity. Qed.

(** C5. The class has no method [has]: the call [mirror.has('abc')]
    raises a [TypeError], and leaves the world as it was. *)
Theorem has_is_not_a_method :
  ∃ m, call_method "has" [VStr "abc"] = Some m
     ∧ m ready_world = (Throw TypeError, ready_world).
Proof. eexists. split; [vm_compute; reflexivity|]. reflexivity. Qed.

(** C9. A [changed] notification carries [undefined] where the mirror
    is expected, and the stringified key: after the insert of the sample
    document the last notification is [changed] with the arguments
    [undefined] and ['"abc"']; [ready] did carry the mirror. *)
Theorem changed_is_emitted_with_undefined_for_the_mirror :
  ∃ w', step (StreamChange sample_insert)
          (world_after [ToArrayFulfilled []]) = Some w'
    ∧ ∃ seen_ready seen_changed,
        emitted w' =
          [notification "ready" [AMirror] seen_ready;
           notification "changed" [AValue VUndefined; AValue cache_key_abc]
             seen_changed].
Proof.
  eexists. split; [vm_compute; reflexivity|].
  eexists _, _. vm_compute. reflexivity.
Qed.

(** ** Further properties *)

Section FurtherProperties.

Context `{Platform}.

(** *** Replays *)

(** X2. Delivering a change event a second time leaves the cache as the
    first delivery left it. *)
Theorem replaying_a_change_event_is_idempotent (c : change) (w : World) :
  cache (mirror (snd (changeHandler c (snd (changeHandler c w))))) =
  cache (mirror (snd (changeHandler c w))).
Proof.
  rewrite (changeHandler_cache c (snd (changeHandler c w))).
  rewrite changeHandler_objects, changeHandler_cache.
  destruct (data_kind c); [|done].
  destruct (event_key (objects w) c) as [k|e]; [|done].
  destruct (nullish (fullDocument c)).
  - apply Map_delete_idem.
  - apply Map_set_idem.
Qed.

(** X3. An event whose document the cache already holds under its key, as
    after a snapshot that saw the change, leaves the cache as it is; so
    does an event without a document for a key the cache does not hold. *)
Theorem change_event_already_reflected_is_a_noop
    (c : change) (w : World) (k : value) :
  data_kind c = true →
  event_key (objects w) c = Ok k →
  (if nullish (fullDocument c)
   then absent (cache (mirror w)) k
   else holds (cache (mirror w)) k (fullDocument c)) →
  cache (mirror (snd (changeHandler c w))) = cache (mirror w).
Proof.
  intros Hd Hk Hc. rewrite changeHandler_cache, Hd, Hk.
  destruct (nullish (fullDocument c)).
  - by apply Map_delete_absent.
  - by apply Map_set_holds.
Qed.

(** *** From a change event to [get] *)

(** X4. After a data event for the document with identifier [id], [get(id)]
    returns the document of the event, or throws [NoSuchKey] with the
    stringified identifier when the event had none. *)
Theorem get_after_a_change_event (c : change) (w : World) (id : value) :
  data_kind c = true →
  get_prop (objects w) (documentKey c) "_id" = Ok id →
  get id (snd (changeHandler c w)) =
    if nullish (fullDocument c)
    then Throw (NoSuchKey (JSON_stringify (objects w) id))
    else Ok (fullDocument c).
Proof.
  intros Hd Hid. unfold get. rewrite changeHandler_objects.
  pose proof (changeHandler_lookup c w (JSON_stringify (objects w) id)) as Hl.
  simpl in Hl. unfold event_key in Hl.
  rewrite Hd, Hid, bool_decide_eq_true_2 in Hl by done. simpl in Hl.
  destruct (nullish (fullDocument c)).
  - unfold absent in Hl. by rewrite Hl.
  - destruct Hl as [-> ->]. done.
Qed.

(** *** The [changed] notification *)

(** X5. A data event with a key emits [changed] once when the mirror is
    valid, whether or not the cache changed, and after the cache has
    been updated: the listeners see the mirror as the handler leaves it.
    On an invalid mirror it emits nothing. *)
Theorem data_event_emits_changed_after_the_update
    (c : change) (w : World) (k : value) :
  data_kind c = true →
  event_key (objects w) c = Ok k →
  let w' := snd (changeHandler c w) in
  fst (changeHandler c w) = Ok tt
  ∧ emitted w' =
      if isValid (mirror w)
      then emitted w ++
             [notification "changed" [AValue VUndefined; AValue k] (mirror w')]
      else emitted w.
Proof.
  intros Hd Hk. simpl. rewrite changeHandler_data by done.
  unfold event_key in Hk.
  destruct (get_prop (objects w) (documentKey c) "_id") as [id|e] eqn:Hid;
    [|done].
  injection Hk as <-.
  assert (get_prop (objects (with_mirror (set_lastOpId (_id c)) w))
            (documentKey c) "_id" = Ok id) as Hid' by (by destruct w).
  rewrite (setCachedValue_runs _ _ _ _ Hid'). unfold isValid.
  destruct w as [h [c0 cs i cl lo] ls es ps ta sc sr ck]; simpl.
  by destruct i.
Qed.

(** *** An event without a document key *)

(** X6. A data event whose [documentKey] is [undefined] or [null] makes the
    handler throw a [TypeError]; it has recorded the identifier of the
    event by then, and nothing else: the cache and the log are as they
    were. *)
Theorem data_event_without_key_throws (c : change) (w : World) :
  data_kind c = true →
  nullish (documentKey c) = true →
  changeHandler c w = (Throw TypeError, with_mirror (set_lastOpId (_id c)) w).
Proof.
  intros Hd Hn. rewrite changeHandler_data by done.
  apply setCachedValue_throws. by destruct (documentKey c).
Qed.


(** *** The snapshot *)

(** X1. The snapshot: when the enumeration completes with documents none of
    which is [null] or [undefined], the mirror becomes ready; under each
    key the cache holds the last document of the enumeration with that
    key, and nothing under any other key, so that [get] returns that
    document or throws [NoSuchKey]; and when the keys of the documents
    are distinct, [find] returns the documents that match, in the order
    of the enumeration. *)
Theorem snapshot_is_loaded_and_the_mirror_is_ready
    (w : World) (docs : list value) :
  reachable w → toArray w = Pending →
  Forall (λ d, nullish d = false) docs →
  ∃ w', step (ToArrayFulfilled docs) w = Some w'
    ∧ isReady (mirror w') = true
    ∧ (∀ k, match last_doc_for (objects w) k docs with
            | Some d => holds (cache (mirror w')) k d
            | None => absent (cache (mirror w')) k
            end)
    ∧ (∀ id,
         get id w' =
           match last_doc_for (objects w)
                   (JSON_stringify (objects w) id) docs with
           | Some d => Ok d
           | None => Throw (NoSuchKey (JSON_stringify (objects w) id))
           end)
    ∧ (NoDup (document_key (objects w) <$> docs) →
       ∀ query,
         find query w' =
           Ok (filter (λ v, sift (objects w) query v = true) docs)).
Proof.
  intros Hw Hta Hdocs.
  destruct (reachable_invariants w Hw) as [[I1 I2 _ _ _ _ _ _ _] _].
  assert (changeStream (mirror w) = None) as Hcs by (apply I2; congruence).
  destruct (I1 Hcs) as (Hi & Hcl & _).
  pose proof (cache_empty_while_pending w Hw Hta) as Hempty.
  unfold step. rewrite decide_True by done. eexists. split; [reflexivity|].
  destruct (constructor_then_ready docs (with_toArray Fulfilled w))
    as (es & _ & ->); [done..|]. simpl.
  destruct w as [h [c s i cl lo] ls es0 ps ta sc sr ck]; simpl in *. subst.
  split_and!.
  - done.
  - intros k. pose proof (seed_cache_lookup h docs [] k Hdocs) as Hl.
    destruct (last_doc_for h k docs); [done|]. by destruct Hl as [? _].
  - intros id. unfold get. simpl.
    pose proof (seed_cache_lookup h docs [] (JSON_stringify h id) Hdocs) as Hl.
    destruct (last_doc_for h (JSON_stringify h id) docs).
    + destruct Hl as [-> ->]. done.
    + destruct Hl as [-> _]. done.
  - intros Hnd query. unfold find, assertState. simpl.
    rewrite (seed_cache_distinct h docs []); done.
Qed.

(** *** Where the promises stand *)

Lemma settlement_invariant_ext w w' :
  changeStream (mirror w') = changeStream (mirror w) →
  closed (mirror w') = closed (mirror w) →
  listeners w' = listeners w → promises w' = promises w →
  stream_close_calls w' = stream_close_calls w →
  settlement_invariant w → settlement_invariant w'.
Proof.
  intros Hs Hc Hl Hp Hsc [S1 S2 S3 S4 S5].
  split; unfold promise_is in *; rewrite ?Hs, ?Hc, ?Hl, ?Hp, ?Hsc; assumption.
Qed.

Lemma settlement_invariant_changeHandler c w :
  settlement_invariant w → settlement_invariant (snd (changeHandler c w)).
Proof.
  intros Hsi.
  destruct (changeHandler_control c w) as [Hc|[_ Hc]];
    unfold control in Hc; simpl in Hc;
    injection Hc as Hc1 Hc2 Hc3 Hc4 Hc5 Hc6 Hc7 Hc8;
    by eapply settlement_invariant_ext.
Qed.

Lemma settlement_invariant_waitUntilReady w :
  settlement_invariant w → settlement_invariant (snd (waitUntilReady w)).
Proof.
  intros [S1 S2 S3 S4 S5]. rewrite waitUntilReady_effect.
  destruct w as [h [c cs i cl lo] ls es ps ta sc sr ck].
  unfold promise_is in *; simpl in *.
  destruct cs as [s|]; simpl; split; unfold promise_is; simpl.
  - exact S1.
  - intros _ p s0 [Hp|[_ [=]]]%promise_is_snoc; [by eapply S2|done].
  - done.
  - intros Hs p [Hp|[_ [=]]]%promise_is_snoc. by apply S4.
  - intros p [Hp|[_ [=]]]%promise_is_snoc. by eapply S5.
  - done.
  - by intros [? [=]].
  - intros _ p s0 [Hp|[-> _]]%promise_is_snoc; apply elem_of_app.
    + left. by eapply S3.
    + right. by apply list_elem_of_singleton.
  - by intros [? [=]].
  - intros p [Hp|[_ [=]]]%promise_is_snoc. by eapply S5.
Qed.

Lemma settlement_invariant_close w :
  settlement_invariant w → settlement_invariant (snd (close w)).
Proof.
  intros [S1 S2 S3 S4 S5]. rewrite close_effect.
  destruct w as [h [c cs i cl lo] ls es ps ta sc sr ck].
  unfold promise_is in *; simpl in *.
  destruct cs as [s|]; simpl; split; unfold promise_is; simpl.
  - exact S1.
  - intros _ p s0 [Hp|[_ [=]]]%promise_is_snoc. by eapply S2.
  - done.
  - intros Hs p [Hp|[-> _]]%promise_is_snoc; apply elem_of_app.
    + left. by apply S4.
    + right. by apply list_elem_of_singleton.
  - intros p [Hp|[_ [=]]]%promise_is_snoc. by eapply S5.
  - done.
  - by intros [? [=]].
  - intros _ p s0 [Hp|[_ [=]]]%promise_is_snoc. apply elem_of_app.
    left. by eapply S3.
  - by intros [? [=]].
  - intros p [Hp|[_ [=]]]%promise_is_snoc. by eapply S5.
Qed.

Lemma settlement_invariant_stream_close_fulfilled w p :
  p ∈ stream_close_calls w →
  control_invariant w → settlement_invariant w →
  settlement_invariant (snd (close_then p
    (with_stream_released true
       (with_stream_close_calls (filter (λ q, q ≠ p)) w)))).
Proof.
  intros Hp [I1 I2 I3 I4 I5 I6 I7 I8 I9] [S1 S2 S3 S4 S5].
  rewrite close_then_effect. specialize (I6 p Hp).
  destruct w as [h [c cs i cl lo] ls es ps ta sc sr ck].
  unfold promise_is in *; simpl in *.
  assert (cs ≠ None) as Hcs.
  { intros ->. destruct (I1 eq_refl) as (_ & _ & -> & _).
    by apply not_elem_of_nil in Hp. }
  split; unfold promise_is; simpl.
  - exact S1.
  - intros Hs q s0 Hq. destruct (decide (p = q)) as [->|Hne].
    + rewrite (lookup_settle _ _ _ _ _ I6), decide_True in Hq by done.
      discriminate.
    + rewrite list_lookup_alter_ne in Hq by done. by eapply S2.
  - done.
  - intros Hs q Hq. destruct (decide (p = q)) as [->|Hne].
    + rewrite (lookup_settle _ _ _ _ _ I6), decide_True in Hq by done.
      discriminate.
    + rewrite list_lookup_alter_ne in Hq by done.
      apply list_elem_of_filter. split; [done|]. by apply S4.
  - done.
Qed.

Lemma settlement_invariant_stream_close_rejected w p :
  p ∈ stream_close_calls w →
  control_invariant w → settlement_invariant w →
  settlement_invariant (snd (settle p Rejected
    (with_stream_close_calls (filter (λ q, q ≠ p)) w))).
Proof.
  intros Hp [I1 I2 I3 I4 I5 I6 I7 I8 I9] [S1 S2 S3 S4 S5].
  unfold settle. run_monad. specialize (I6 p Hp).
  destruct w as [h [c cs i cl lo] ls es ps ta sc sr ck].
  unfold promise_is in *; simpl in *.
  assert (cs ≠ None) as Hcs.
  { intros ->. destruct (I1 eq_refl) as (_ & _ & -> & _).
    by apply not_elem_of_nil in Hp. }
  split; unfold promise_is; simpl.
  - exact S1.
  - intros Hs q s0 Hq. destruct (decide (p = q)) as [->|Hne].
    + rewrite (lookup_settle _ _ _ _ _ I6), decide_True in Hq by done.
      discriminate.
    + rewrite list_lookup_alter_ne in Hq by done. by eapply S2.
  - done.
  - intros Hs q Hq. destruct (decide (p = q)) as [->|Hne].
    + rewrite (lookup_settle _ _ _ _ _ I6), decide_True in Hq by done.
      discriminate.
    + rewrite list_lookup_alter_ne in Hq by done.
      apply list_elem_of_filter. split; [done|]. by apply S4.
  - intros q Hq. destruct (decide (p = q)) as [->|Hne].
    + rewrite (lookup_settle _ _ _ _ _ I6), decide_True in Hq by done.
      discriminate.
    + rewrite list_lookup_alter_ne in Hq by done. by eapply S5.
Qed.

Lemma settlement_invariant_constructor_then docs w :
  toArray w = Pending →
  control_invariant w → settlement_invariant w →
  settlement_invariant (snd (constructor_then docs (with_toArray Fulfilled w))).
Proof.
  intros Hta [I1 I2 I3 I4 I5 I6 I7 I8 I9] [S1 S2 S3 S4 S5].
  assert (changeStream (mirror w) = None) as Hcs by (apply I2; congruence).
  destruct (I1 Hcs) as (Hi & Hcl & Hsc & Hsr & Hps).
  destruct (constructor_then_effect docs (with_toArray Fulfilled w))
    as (c' & es' & _ & [-> | ->]); [done..| |].
  - destruct w as [h [c cs i cl lo] ls es ps ta sc sr ck].
    unfold promise_is in *; simpl in *. split; unfold promise_is; simpl; done.
  - destruct w as [h [c cs i cl lo] ls es ps ta sc sr ck].
    unfold promise_is in *; simpl in *. subst.
    rewrite Forall_lookup in Hps.
    split; unfold promise_is; simpl.
    + intros s [= <-]. by eexists.
    + intros _ p s Hp. apply lookup_resolve_all_inv in Hp as (pr & Hpr & Heq).
      pose proof (Hps _ _ Hpr) as Hpend.
      destruct pr as [k s0]; simpl in *; subst s0.
      destruct (decide (OnReadyResolve p ∈ ls)) as [Hin|Hnin].
      * by injection Heq as _ ->.
      * injection Heq as Hk Hs. subst. exfalso. apply Hnin. by eapply S3.
    + done.
    + intros _ p Hp. apply lookup_resolve_all_inv in Hp as (pr & Hpr & Heq).
      apply elem_of_closers.
      destruct (decide (OnReadyResolve p ∈ ls)) as [Hin|Hnin].
      * destruct (I7 p Hin) as [s1 Hs1]. rewrite Hs1 in Hpr.
        injection Hpr as <-. destruct s1; discriminate.
      * subst pr. by eapply I9.
    + intros p Hp. apply lookup_resolve_all_inv in Hp as (pr & Hpr & Heq).
      pose proof (Hps _ _ Hpr) as Hpend.
      destruct pr as [k s0]; simpl in *; subst s0.
      destruct (decide (OnReadyResolve p ∈ ls)) as [Hin|Hnin].
      * destruct (I7 p Hin) as [s1 Hs1]. rewrite Hs1 in Hpr.
        injection Hpr as <- _. discriminate.
      * discriminate.
Qed.

Lemma settlement_invariant_step l w w' :
  step l w = Some w' →
  control_invariant w → settlement_invariant w → settlement_invariant w'.
Proof.
  intros Hstep Hci Hsi. destruct l as [d|docs| |c|p|p| | |h]; simpl in Hstep.
  - case_decide; [|done]. injection Hstep as <-.
    eapply settlement_invariant_ext; [..|done]; by destruct w as [? [] ?].
  - case_decide; [|done]. injection Hstep as <-.
    by apply settlement_invariant_constructor_then.
  - case_decide as Hta; [|done]. injection Hstep as <-.
    eapply settlement_invariant_ext; [..|done]; by destruct w as [? [] ?].
  - destruct (changeStream (mirror w)) as [s|] eqn:Hs; [|done].
    injection Hstep as <-. by apply settlement_invariant_changeHandler.
  - case_decide; [|done]. injection Hstep as <-.
    by apply settlement_invariant_stream_close_fulfilled.
  - case_decide; [|done]. injection Hstep as <-.
    by apply settlement_invariant_stream_close_rejected.
  - injection Hstep as <-. by apply settlement_invariant_waitUntilReady.
  - injection Hstep as <-. by apply settlement_invariant_close.
  - injection Hstep as <-.
    eapply settlement_invariant_ext; [..|done]; by destruct w as [? [] ?].
Qed.

Lemma reachable_settlement_invariant w :
  reachable w → settlement_invariant w.
Proof.
  intros (h & t0 & ls & Hrun).
  enough (control_invariant w ∧ settlement_invariant w) as [_ ?] by done.
  eapply (run_invariant (λ w, control_invariant w ∧ settlement_invariant w));
    [|done|].
  - intros l w1 w2 Hstep [Hci Hsi]. split.
    + by eapply control_invariant_step.
    + by eapply settlement_invariant_step.
  - split; [apply control_invariant_constructor|].
    split; unfold promise_is; simpl; done.
Qed.

(** *** How often [ready] and [invalidated] are emitted *)

Lemma ready_in_app es1 es2 :
  ready_in (es1 ++ es2) = ready_in es1 ++ ready_in es2.
Proof. apply filter_app. Qed.

Lemma ready_in_changed es :
  Forall changed_notification es → ready_in es = [].
Proof.
  induction 1 as [|e es [He _] _ IH]; [done|].
  unfold ready_in in *. rewrite filter_cons_False; [done|].
  rewrite He. discriminate.
Qed.

(** A step adds a [ready] notification exactly when it builds the
    stream. *)
Lemma step_ready l w w' :
  control_invariant w → step l w = Some w' →
  length (ready_in (emitted w')) =
    (length (ready_in (emitted w)) +
     match changeStream (mirror w), changeStream (mirror w') with
     | None, Some _ => 1
     | _, _ => 0
     end)%nat.
Proof.
  intros Hci Hstep.
  assert (∀ w1 : World, emitted w1 = emitted w →
            changeStream (mirror w1) = changeStream (mirror w) →
            length (ready_in (emitted w1)) =
              (length (ready_in (emitted w)) +
               match changeStream (mirror w), changeStream (mirror w1) with
               | None, Some _ => 1
               | _, _ => 0
               end)%nat) as Hsame.
  { intros w1 -> ->. destruct (changeStream (mirror w)); lia. }
  destruct l as [d|docs| |c|p|p| | |h]; simpl in Hstep.
  - case_decide; [|done]. injection Hstep as <-. by apply Hsame.
  - case_decide as Hta; [|done]. injection Hstep as <-.
    destruct Hci as [I1 I2 _ _ _ _ _ _ _].
    assert (changeStream (mirror w) = None) as Hcs by (apply I2; congruence).
    destruct (I1 Hcs) as (Hi & _).
    destruct (constructor_then_effect docs (with_toArray Fulfilled w))
      as (c' & es' & Hes'%ready_in_changed & [-> | ->]); [done..| |].
    + destruct w as [h [c cs i cl lo] ls es ps ta sc sr ck]; simpl in *.
      subst cs. rewrite ready_in_app, Hes', app_nil_r. lia.
    + destruct w as [h [c cs i cl lo] ls es ps ta sc sr ck]; simpl in *.
      subst cs. rewrite !ready_in_app, Hes'.
      rewrite !length_app. simpl. lia.
  - case_decide; [|done]. injection Hstep as <-. by apply Hsame.
  - destruct (changeStream (mirror w)) as [s|] eqn:Hs; [|done].
    injection Hstep as <-.
    destruct (data_kind c) eqn:Hd.
    + rewrite changeHandler_data by done.
      destruct (get_prop (objects (with_mirror (set_lastOpId (_id c)) w))
                  (documentKey c) "_id") as [id|e] eqn:Hk.
      * rewrite (setCachedValue_runs _ _ _ _ Hk).
        destruct w as [h [c0 cs i cl lo] ls es ps ta sc sr ck]; simpl in *.
        destruct i; simpl; [lia|].
        rewrite ready_in_app, length_app. simpl. lia.
      * rewrite (setCachedValue_throws _ _ _ _ Hk).
        destruct w as [? [] ?]; simpl. lia.
    + destruct (decide (operationType c = "invalidate")) as [Hop|Hop].
      * rewrite changeHandler_invalidate by done.
        destruct w as [h [c0 cs i cl lo] ls es ps ta sc sr ck]; simpl in *.
        destruct i; simpl; [lia|].
        rewrite ready_in_app, length_app. simpl. lia.
      * rewrite changeHandler_other by done.
        destruct w as [? [] ?]; simpl. lia.
  - case_decide; [|done]. injection Hstep as <-.
    apply Hsame; by destruct w as [? [] ?].
  - case_decide; [|done]. injection Hstep as <-.
    apply Hsame; by destruct w as [? [] ?].
  - injection Hstep as <-. rewrite waitUntilReady_effect.
    apply Hsame; by destruct w as [? [? [] ? ? ?] ?].
  - injection Hstep as <-. rewrite close_effect.
    apply Hsame; by destruct w as [? [? [] ? ? ?] ?].
  - injection Hstep as <-. by apply Hsame.
Qed.

Lemma count_invariant_step l w w' :
  control_invariant w → log_invariant w → step l w = Some w' →
  count_invariant w → count_invariant w'.
Proof.
  intros Hci [_ B2 _ _] Hstep [C1 C2]. split.
  - rewrite (step_ready l w w' Hci Hstep), C1.
    destruct (step_frame l w w' Hci Hstep) as (_ & _ & Hkeep & _).
    destruct (changeStream (mirror w)) as [s|]; [|by destruct (changeStream _)].
    by rewrite (Hkeep s eq_refl).
  - intros Hi'.
    destruct (step_log l w w' Hci Hstep) as (es & He & _ & Hinv & Hval & _).
    rewrite He, invalidated_in_app, length_app.
    destruct (invalid (mirror w)) eqn:Hi.
    + destruct (Hinv eq_refl) as [-> _]. rewrite C2 by done. simpl. lia.
    + rewrite B2 by done.
      destruct (Hval eq_refl) as [[? _]|[_ ->]]; [congruence|done].
Qed.

Lemma reachable_count_invariant w : reachable w → count_invariant w.
Proof.
  intros (h & t0 & ls & Hrun).
  enough (control_invariant w ∧ log_invariant w ∧ count_invariant w)
    as (_ & _ & ?) by done.
  eapply (run_invariant
    (λ w, control_invariant w ∧ log_invariant w ∧ count_invariant w));
    [|done|].
  - intros l w1 w2 Hstep (Hci & Hli & Hco). split_and!.
    + by eapply control_invariant_step.
    + by eapply log_invariant_step.
    + by eapply count_invariant_step.
  - split_and!.
    + apply control_invariant_constructor.
    + apply (reachable_invariants _ (reachable_constructor h t0)).
    + split; simpl; done.
Qed.

(** X7. [ready] has been emitted once when the stream exists, and not at all
    before. *)
Theorem ready_is_emitted_exactly_when_the_stream_is_built (w : World) :
  reachable w →
  emitted_count "ready" w =
    match changeStream (mirror w) with Some _ => 1%nat | None => 0%nat end.
Proof. intros Hw. by destruct (reachable_count_invariant w Hw) as [? _]. Qed.

(** X8. [isValid()] is false exactly when [invalidated] has been emitted. *)
Theorem invalid_exactly_when_invalidated_was_emitted (w : World) :
  reachable w →
  emitted_count "invalidated" w = if isValid (mirror w) then 0%nat else 1%nat.
Proof.
  intros Hw. destruct (reachable_count_invariant w Hw) as [_ C2].
  destruct (reachable_invariants w Hw) as [_ [_ B2 _ _]].
  unfold isValid, emitted_count.
  destruct (invalid (mirror w)); simpl.
  - by apply C2.
  - fold (invalidated_in (emitted w)). by rewrite B2.
Qed.

(** X9. A promise of [waitUntilReady] is pending, with its listener
    registered, as long as the stream does not exist, and fulfilled once
    it does, also when the mirror has been invalidated or closed since;
    it is never rejected. *)
Theorem waitUntilReady_is_fulfilled_exactly_when_the_stream_exists
    (w : World) (p : nat) (s : pstate) :
  reachable w → promise_is w p PWaitUntilReady s →
  match changeStream (mirror w) with
  | Some _ => s = Fulfilled
  | None => s = Pending ∧ OnReadyResolve p ∈ listeners w
  end.
Proof.
  intros Hw Hp. destruct (reachable_settlement_invariant w Hw) as [_ S2 S3 _ _].
  destruct (reachable_invariants w Hw) as [[I1 _ _ _ _ _ _ _ _] _].
  destruct (changeStream (mirror w)) as [cs|] eqn:Hcs.
  - by eapply S2.
  - destruct (I1 eq_refl) as (_ & _ & _ & _ & Hps).
    rewrite Forall_lookup in Hps. split; [|by eapply S3].
    by specialize (Hps _ _ Hp).
Qed.

(** X10. Where a promise of [close] stands: pending with its listener
    registered before the stream exists; pending with a call of
    [stream.close()] outstanding once it exists; fulfilled only with
    [isClosed()] true and the stream released; rejected only after the
    stream existed. *)
Theorem close_promise_follows_the_stream
    (w : World) (p : nat) (s : pstate) :
  reachable w → promise_is w p PClose s →
  match s with
  | Pending =>
      match changeStream (mirror w) with
      | None => OnReadyCloseStream p ∈ listeners w
      | Some _ => p ∈ stream_close_calls w
      end
  | Fulfilled => isClosed (mirror w) = true ∧ stream_released w = true
  | Rejected => is_Some (changeStream (mirror w))
  end.
Proof.
  intros Hw Hp. destruct (reachable_settlement_invariant w Hw) as [_ _ _ S4 S5].
  destruct (reachable_invariants w Hw) as [[I1 _ _ I4 _ _ _ _ I9] _].
  destruct s.
  - destruct (changeStream (mirror w)) as [cs|] eqn:Hcs.
    + by apply S4.
    + by eapply I9.
  - split; [by eapply S5|by eapply I4].
  - destruct (changeStream (mirror w)) as [cs|] eqn:Hcs; [by eexists|].
    destruct (I1 eq_refl) as (_ & _ & _ & _ & Hps).
    rewrite Forall_lookup in Hps. by specialize (Hps _ _ Hp).
Qed.

(** X11. When the driver rejects an outstanding [stream.close()], the promise
    of that [close] is rejected; the fields of the mirror stay as they
    were, [isClosed()] included, and the call is no longer outstanding. *)
Theorem rejected_stream_close_rejects_close (w : World) (p : nat) :
  reachable w → p ∈ stream_close_calls w →
  ∃ w', step (StreamCloseRejected p) w = Some w'
    ∧ promise_is w' p PClose Rejected
    ∧ mirror w' = mirror w
    ∧ stream_released w' = stream_released w
    ∧ p ∉ stream_close_calls w'.
Proof.
  intros Hw Hp. destruct (reachable_invariants w Hw) as [[_ _ _ _ _ I6 _ _ _] _].
  unfold step. rewrite decide_True by done.
  eexists. split; [reflexivity|]. unfold settle. run_monad.
  unfold promise_is. simpl. split_and!; [|done..|].
  - rewrite (lookup_settle _ _ _ _ _ (I6 p Hp)). by rewrite decide_True.
  - rewrite list_elem_of_filter. by intros [? _].
Qed.

(** *** After the close *)

Lemma step_closed l w w' :
  control_invariant w → step l w = Some w' →
  closed (mirror w) = true → closed (mirror w') = true.
Proof.
  intros Hci Hstep Hcl. destruct l as [d|docs| |c|p|p| | |h]; simpl in Hstep.
  - case_decide; [|done]. by injection Hstep as <-.
  - case_decide as Hta; [|done]. exfalso.
    destruct Hci as [I1 I2 _ _ _ _ _ _ _].
    assert (changeStream (mirror w) = None) as Hcs by (apply I2; congruence).
    destruct (I1 Hcs) as (_ & ? & _). congruence.
  - case_decide; [|done]. by injection Hstep as <-.
  - destruct (changeStream (mirror w)) as [s|] eqn:Hs; [|done].
    injection Hstep as <-.
    destruct (changeHandler_control c w) as [Hc|[_ Hc]];
      unfold control in Hc; simpl in Hc;
      injection Hc as _ _ Hc3 _ _ _ _ _; congruence.
  - case_decide; [|done]. by injection Hstep as <-.
  - case_decide; [|done]. by injection Hstep as <-.
  - injection Hstep as <-. rewrite waitUntilReady_effect.
    by destruct (changeStream (mirror w)).
  - injection Hstep as <-. rewrite close_effect.
    by destruct (changeStream (mirror w)).
  - by injection Hstep as <-.
Qed.

(** X12. Once [isClosed()] is true it stays true: the mirror is never ready
    again and every [find] throws, [CollectionNoLongerValid] when the
    mirror is invalid as well and [MirrorClosed] otherwise. *)
Theorem closed_mirror_stays_closed
    (w : World) (ls : list label) (w' : World) :
  reachable w → isClosed (mirror w) = true → run ls w = Some w' →
  isClosed (mirror w') = true
  ∧ isReady (mirror w') = false
  ∧ ∀ query,
      find query w' =
        Throw (if isValid (mirror w') then MirrorClosed
               else CollectionNoLongerValid).
Proof.
  intros Hw Hcl Hrun.
  assert (closed (mirror w') = true) as Hcl'.
  { enough (control_invariant w' ∧ closed (mirror w') = true) as [_ ?] by done.
    eapply (run_invariant (λ w, control_invariant w ∧ closed (mirror w) = true));
      [|done|].
    - intros l w1 w2 Hstep [Hci Hc]. split.
      + by eapply control_invariant_step.
      + by eapply step_closed.
    - split; [by apply reachable_invariants|done]. }
  unfold isClosed, isReady, isValid, find, assertState. rewrite Hcl'.
  split_and!; [done|by rewrite andb_false_r|].
  intros query. by destruct (invalid (mirror w')).
Qed.

(** *** A failed enumeration and [close] *)

(** X13. After a failed enumeration no [close] ever completes: the mirror is
    never closed, [stream.close()] is never called, and every promise of
    [close] stays pending. *)
Theorem close_never_completes_after_a_failed_enumeration
    (w : World) (ls : list label) (w' : World) :
  reachable w → toArray w = Rejected → run ls w = Some w' →
  isClosed (mirror w') = false
  ∧ stream_close_calls w' = []
  ∧ ∀ p s, promise_is w' p PClose s → s = Pending.
Proof.
  intros Hw Hta Hrun.
  destruct (failed_enumeration_frame w ls w' Hw Hta Hrun) as (_ & Hcs & Hps).
  assert (reachable w') as Hw' by (by eapply reachable_run).
  destruct (reachable_invariants w' Hw') as [[I1 _ _ _ _ _ _ _ _] _].
  destruct (I1 Hcs) as (_ & Hcl & Hsc & _).
  split_and!; [done..|]. intros p s Hp.
  rewrite Forall_lookup in Hps. by specialize (Hps _ _ Hp).
Qed.

End FurtherProperties.

(** ** The further properties on the sample data *)

Lemma change_event_already_reflected_is_a_noop_witness :
  data_kind sample_insert = true
  ∧ event_key (objects ready_world) sample_insert = Ok cache_key_abc
  ∧ holds (cache (mirror ready_world)) cache_key_abc doc_abc
  ∧ cache (mirror (snd (changeHandler sample_insert ready_world))) =
      cache (mirror ready_world).
Proof.
  assert (data_kind sample_insert = true) as H1 by reflexivity.
  assert (event_key (objects ready_world) sample_insert = Ok cache_key_abc)
    as H2 by (vm_compute; reflexivity).
  assert (holds (cache (mirror ready_world)) cache_key_abc doc_abc) as H3
    by (split; vm_compute; reflexivity).
  split; [exact H1|]. split; [exact H2|]. split; [exact H3|].
  apply (change_event_already_reflected_is_a_noop
           sample_insert ready_world cache_key_abc H1 H2). exact H3.
Defined.

Lemma get_after_a_change_event_witness :
  data_kind sample_update_gone = true
  ∧ get_prop (objects ready_world) (documentKey sample_update_gone) "_id" =
      Ok (VStr "abc")
  ∧ get (VStr "abc") ready_world = Ok doc_abc
  ∧ get (VStr "abc") (snd (changeHandler sample_update_gone ready_world)) =
      Throw (NoSuchKey cache_key_abc).
Proof.
  assert (data_kind sample_update_gone = true) as H1 by reflexivity.
  assert (get_prop (objects ready_world) (documentKey sample_update_gone) "_id"
          = Ok (VStr "abc")) as H2 by (vm_compute; reflexivity).
  split; [exact H1|]. split; [exact H2|]. split; [vm_compute; reflexivity|].
  exact (get_after_a_change_event
           sample_update_gone ready_world (VStr "abc") H1 H2).
Defined.

Lemma data_event_emits_changed_after_the_update_witness :
  data_kind sample_delete = true
  ∧ event_key (objects ready_world) sample_delete = Ok cache_key_abc
  ∧ emitted (snd (changeHandler sample_delete ready_world)) =
      emitted ready_world ++
        [notification "changed" [AValue VUndefined; AValue cache_key_abc]
           (mirror (snd (changeHandler sample_delete ready_world)))]
  ∧ absent (cache (mirror (snd (changeHandler sample_delete ready_world))))
      cache_key_abc.
Proof.
  assert (data_kind sample_delete = true) as H1 by reflexivity.
  assert (event_key (objects ready_world) sample_delete = Ok cache_key_abc)
    as H2 by (vm_compute; reflexivity).
  split; [exact H1|]. split; [exact H2|].
  split; [|vm_compute; reflexivity].
  destruct (data_event_emits_changed_after_the_update
              sample_delete ready_world cache_key_abc H1 H2) as [_ Hlog].
  exact Hlog.
Defined.

Lemma data_event_without_key_throws_witness :
  let c := {| _id := VNum 9; operationType := "update";
              documentKey := VUndefined; fullDocument := doc_abc |} in
  data_kind c = true
  ∧ nullish (documentKey c) = true
  ∧ changeHandler c ready_world =
      (Throw TypeError, with_mirror (set_lastOpId (VNum 9)) ready_world).
Proof.
  simpl. split; [reflexivity|]. split; [reflexivity|].
  apply (data_event_without_key_throws
           {| _id := VNum 9; operationType := "update";
              documentKey := VUndefined; fullDocument := doc_abc |}
           ready_world); reflexivity.
Defined.

Lemma snapshot_is_loaded_and_the_mirror_is_ready_witness :
  reachable fresh_world
  ∧ toArray fresh_world = Pending
  ∧ Forall (λ d, nullish d = false) [doc_abc]
  ∧ ∃ w', step (ToArrayFulfilled [doc_abc]) fresh_world = Some w'
      ∧ isReady (mirror w') = true
      ∧ get (VStr "abc") w' = Ok doc_abc
      ∧ get (VStr "ghi") w' =
          Throw (NoSuchKey (VStr (double_quote +:+ "ghi" +:+ double_quote)))
      ∧ find empty_query w' = Ok [doc_abc].
Proof.
  assert (reachable fresh_world) as Hw by apply reachable_constructor.
  assert (Forall (λ d, nullish d = false) [doc_abc]) as Hdocs
    by (repeat constructor).
  split; [exact Hw|]. split; [reflexivity|]. split; [exact Hdocs|].
  destruct (snapshot_is_loaded_and_the_mirror_is_ready
              fresh_world [doc_abc] Hw eq_refl Hdocs)
    as (w' & Hstep & Hready & _ & Hget & Hfind).
  exists w'. split; [exact Hstep|]. split; [exact Hready|].
  split; [exact (Hget (VStr "abc"))|]. split; [exact (Hget (VStr "ghi"))|].
  apply (Hfind ltac:(vm_compute; repeat constructor; set_solver) empty_query).
Defined.

Lemma ready_is_emitted_exactly_when_the_stream_is_built_witness :
  reachable ready_world ∧ emitted_count "ready" ready_world = 1%nat.
Proof.
  assert (reachable ready_world) as Hw
    by (apply reachable_world_after; vm_compute; eauto).
  split; [exact Hw|].
  exact (ready_is_emitted_exactly_when_the_stream_is_built ready_world Hw).
Defined.

Lemma invalid_exactly_when_invalidated_was_emitted_witness :
  reachable invalid_world ∧ emitted_count "invalidated" invalid_world = 1%nat.
Proof.
  assert (reachable invalid_world) as Hw
    by (apply reachable_world_after; vm_compute; eauto).
  split; [exact Hw|].
  exact (invalid_exactly_when_invalidated_was_emitted invalid_world Hw).
Defined.

Lemma waitUntilReady_is_fulfilled_exactly_when_the_stream_exists_witness :
  reachable (world_after [CallWaitUntilReady])
  ∧ promise_is (world_after [CallWaitUntilReady]) 0 PWaitUntilReady Pending
  ∧ OnReadyResolve 0 ∈ listeners (world_after [CallWaitUntilReady]).
Proof.
  assert (reachable (world_after [CallWaitUntilReady])) as Hw
    by (apply reachable_world_after; vm_compute; eauto).
  split; [exact Hw|]. split; [reflexivity|].
  destruct (waitUntilReady_is_fulfilled_exactly_when_the_stream_exists
              (world_after [CallWaitUntilReady]) 0 Pending Hw eq_refl)
    as [_ Hin].
  exact Hin.
Defined.

Lemma close_promise_follows_the_stream_witness :
  reachable closed_world
  ∧ promise_is closed_world 0 PClose Fulfilled
  ∧ isClosed (mirror closed_world) = true
  ∧ stream_released closed_world = true.
Proof.
  assert (reachable closed_world) as Hw
    by (apply reachable_world_after; vm_compute; eauto).
  split; [exact Hw|]. split; [reflexivity|].
  exact (close_promise_follows_the_stream closed_world 0 Fulfilled Hw eq_refl).
Defined.

Lemma rejected_stream_close_rejects_close_witness :
  reachable (world_after [ToArrayFulfilled [doc_abc]; CallClose])
  ∧ 0%nat ∈ stream_close_calls
              (world_after [ToArrayFulfilled [doc_abc]; CallClose])
  ∧ ∃ w', step (StreamCloseRejected 0)
            (world_after [ToArrayFulfilled [doc_abc]; CallClose]) = Some w'
      ∧ promise_is w' 0 PClose Rejected
      ∧ isClosed (mirror w') = false.
Proof.
  assert (reachable (world_after [ToArrayFulfilled [doc_abc]; CallClose]))
    as Hw by (apply reachable_world_after; vm_compute; eauto).
  assert (0%nat ∈ stream_close_calls
                    (world_after [ToArrayFulfilled [doc_abc]; CallClose]))
    as Hin by (vm_compute; apply list_elem_of_here).
  split; [exact Hw|]. split; [exact Hin|].
  destruct (rejected_stream_close_rejects_close _ 0 Hw Hin)
    as (w' & Hstep & Hrej & Hmirror & _).
  exists w'. split; [exact Hstep|]. split; [exact Hrej|].
  rewrite Hmirror. reflexivity.
Defined.

Lemma closed_mirror_stays_closed_witness :
  reachable closed_world
  ∧ isClosed (mirror closed_world) = true
  ∧ run [StreamChange sample_insert; CallWaitUntilReady] closed_world =
      Some (world_after [ToArrayFulfilled [doc_abc]; CallClose;
                         StreamCloseFulfilled 0; StreamChange sample_insert;
                         CallWaitUntilReady])
  ∧ isReady (mirror (world_after
               [ToArrayFulfilled [doc_abc]; CallClose;
                StreamCloseFulfilled 0; StreamChange sample_insert;
                CallWaitUntilReady])) = false.
Proof.
  assert (reachable closed_world) as Hw
    by (apply reachable_world_after; vm_compute; eauto).
  assert (run [StreamChange sample_insert; CallWaitUntilReady] closed_world =
            Some (world_after [ToArrayFulfilled [doc_abc]; CallClose;
                               StreamCloseFulfilled 0;
                               StreamChange sample_insert;
                               CallWaitUntilReady])) as Hrun
    by (vm_compute; reflexivity).
  split; [exact Hw|]. split; [reflexivity|]. split; [exact Hrun|].
  destruct (closed_mirror_stays_closed closed_world _ _ Hw eq_refl Hrun)
    as (_ & Hready & _).
  exact Hready.
Defined.

Lemma close_never_completes_after_a_failed_enumeration_witness :
  reachable (world_after [CallClose; ToArrayRejected])
  ∧ toArray (world_after [CallClose; ToArrayRejected]) = Rejected
  ∧ run [Tick 60000] (world_after [CallClose; ToArrayRejected]) =
      Some (world_after [CallClose; ToArrayRejected; Tick 60000])
  ∧ isClosed (mirror (world_after [CallClose; ToArrayRejected; Tick 60000])) =
      false.
Proof.
  assert (reachable (world_after [CallClose; ToArrayRejected])) as Hw
    by (apply reachable_world_after; vm_compute; eauto).
  assert (run [Tick 60000] (world_after [CallClose; ToArrayRejected]) =
            Some (world_after [CallClose; ToArrayRejected; Tick 60000]))
    as Hrun by (vm_compute; reflexivity).
  split; [exact Hw|]. split; [reflexivity|]. split; [exact Hrun|].
  destruct (close_never_completes_after_a_failed_enumeration
              _ _ _ Hw eq_refl Hrun) as (Hcl & _).
  exact Hcl.
Defined.
